(** * The brute-force knapsack of [solution.js], embedded and verified

    The program is a pipeline of six small JavaScript functions over
    arrays of numbers:

      items.map(calculateBenefit).sort(sortByBenefit)
        |> sortedCombinations
        |> map(calculateTotalBenefit) |> filter(filterByWeight(maximumWeight))
        |> sort(sortByTotalBenefit) |> [0] |> unwrap

    The embedding is shallow.  JavaScript arrays of fixed shape become
    tuples ([weight, benefit], [ratio, weight, benefit],
    [totalRatio, totalWeight, ...members]); arrays of unknown length become
    lists; the accumulator that [permute] pushes to is threaded through the
    recursion; an exception is a result value.  The pipeline is written once,
    over an interface of the arithmetic the source uses, and is run on two
    number types: IEEE 754 binary64 (what the engine computes with) and exact
    rationals extended with the two infinities and NaN (what the
    specification calls a real; no rounding, no overflow).  The last part
    models the same functions over a store of mutable arrays, to speak about
    what the in-place [sort] and [push] touch. *)

From Stdlib Require Import QArith Lqa.
From Stdlib Require Import Floats.PrimFloat.
From stdpp Require Import list sorting.

Set Default Proof Using "Type".

(** ** Numbers *)

Declare Scope num_scope.
Delimit Scope num_scope with num.

(** The arithmetic of the source: the literal [0], [Infinity], [+], [-], [/],
    [<=], and the strict comparison that [||] and [Array.prototype.sort]
    apply to a comparator's result. *)
Class Number (num : Type) := {
  nzero : num;
  ninfinity : num;
  nadd : num → num → num;
  nsub : num → num → num;
  ndiv : num → num → num;
  nleb : num → num → bool;
  nltb : num → num → bool
}.

Infix "+" := nadd : num_scope.
Infix "-" := nsub : num_scope.
Infix "/" := ndiv : num_scope.
Infix "<=?" := nleb : num_scope.
Infix "<?" := nltb : num_scope.

(** *** IEEE 754 binary64, the numbers of the engine *)

#[export] Instance double_number : Number float := {
  nzero := 0%float;
  ninfinity := PrimFloat.infinity;
  nadd := PrimFloat.add;
  nsub := PrimFloat.sub;
  ndiv := PrimFloat.div;
  nleb := PrimFloat.leb;
  nltb := PrimFloat.ltb
}.

(** *** Exact numbers: a rational, an infinity, or NaN

    Finite values are exact rationals, so no operation rounds or overflows;
    the special values follow IEEE 754.  The two zeros are identified (a
    quotient by zero takes the sign of its numerator). *)
Inductive xnum : Type :=
  | Fin (q : Q)
  | PInf
  | NInf
  | NaN.

Definition Qltb (a b : Q) : bool := negb (Qle_bool b a).

Definition xadd (a b : xnum) : xnum :=
  match a, b with
  | NaN, _ | _, NaN => NaN
  | Fin x, Fin y => Fin (x + y)
  | PInf, NInf | NInf, PInf => NaN
  | PInf, _ | _, PInf => PInf
  | NInf, _ | _, NInf => NInf
  end.

Definition xneg (a : xnum) : xnum :=
  match a with
  | Fin x => Fin (- x)
  | PInf => NInf
  | NInf => PInf
  | NaN => NaN
  end.

Definition xsub (a b : xnum) : xnum := xadd a (xneg b).

Definition xdiv (a b : xnum) : xnum :=
  match a, b with
  | NaN, _ | _, NaN => NaN
  | Fin x, Fin y =>
      if Qeq_bool y 0 then
        if Qeq_bool x 0 then NaN else if Qltb 0 x then PInf else NInf
      else Fin (x / y)
  | Fin _, (PInf | NInf) => Fin 0
  | (PInf | NInf), (PInf | NInf) => NaN
  | PInf, Fin y => if Qle_bool 0 y then PInf else NInf
  | NInf, Fin y => if Qle_bool 0 y then NInf else PInf
  end.

Definition xleb (a b : xnum) : bool :=
  match a, b with
  | NaN, _ | _, NaN => false
  | Fin x, Fin y => Qle_bool x y
  | NInf, _ | _, PInf => true
  | _, _ => false
  end.

Definition xltb (a b : xnum) : bool :=
  match a, b with
  | NaN, _ | _, NaN => false
  | Fin x, Fin y => Qltb x y
  | PInf, _ | _, NInf => false
  | _, _ => true
  end.

#[export] Instance exact_number : Number xnum := {
  nzero := Fin 0;
  ninfinity := PInf;
  nadd := xadd;
  nsub := xsub;
  ndiv := xdiv;
  nleb := xleb;
  nltb := xltb
}.

(** Two exact numbers denote the same value. *)
Definition xeq (a b : xnum) : Prop :=
  match a, b with
  | Fin x, Fin y => (x == y)%Q
  | PInf, PInf | NInf, NInf | NaN, NaN => True
  | _, _ => False
  end.

#[export] Instance xnum_equiv : Equiv xnum := xeq.

(** The sum of a list of numbers. *)
Definition xsum (l : list xnum) : xnum := foldr xadd (Fin 0) l.


(** ** Exceptions and results

    [TypeError] is what the engine throws when [knapsack] reads [.slice] of
    [results[0]] and [results] is empty.  [InvalidItem] and
    [NoFeasibleSolution] are the error names of the specification; no path of
    the source constructs them. *)
Inductive exception : Type :=
  | TypeError
  | InvalidItem
  | NoFeasibleSolution.

Inductive result (A : Type) : Type :=
  | Return (a : A)
  | Throw (e : exception).
Arguments Return {A} a.
Arguments Throw {A} e.

(** ** [Array.prototype.sort]

    The built-in sorts in place and is stable (ECMAScript 2019).  It is
    modelled on the contents of the array by a stable insertion sort:
    [x] moves behind [y] only when [comparefn(x, y) > 0]; a result that is
    zero or NaN leaves the two in their order.  For a comparator that is
    consistent on the array the result is sorted and the elements that tie
    keep their order ([array_sort_sorted], [array_sort_stable]); for another
    comparator ECMAScript leaves the order to the implementation. *)
Section ArraySort.
Context {num : Type} `{Number num} {A : Type}.
Variable comparefn : A → A → num.

Fixpoint sort_insert (x : A) (l : list A) : list A :=
  match l with
  | [] => [x]
  | y :: l' =>
      if (nzero <? comparefn x y)%num then y :: sort_insert x l' else x :: l
  end.

Fixpoint array_sort (l : list A) : list A :=
  match l with
  | [] => []
  | x :: l' => sort_insert x (array_sort l')
  end.

(** [x] has to go behind [y]. *)
Definition behind (x y : A) : Prop := (nzero <? comparefn x y)%num = true.

(** Neither has to go behind the other. *)
Definition tied (x y : A) : bool :=
  negb (nzero <? comparefn x y)%num && negb (nzero <? comparefn y x)%num.

(** The first element after sorting, found without sorting: going from
    the right, the candidate is replaced by an earlier element unless that
    element has to go behind it. *)
Fixpoint first_sorted (l : list A) : option A :=
  match l with
  | [] => None
  | x :: l' =>
      match first_sorted l' with
      | None => Some x
      | Some y => Some (if (nzero <? comparefn x y)%num then y else x)
      end
  end.
End ArraySort.

(** ** The pipeline of [solution.js] *)
Section Pipeline.
Context {num : Type} `{Number num}.

(** [[weight, benefit]] *)
Definition item : Type := num * num.
(** [[ratio, weight, benefit]] *)
Definition annotated : Type := num * num * num.
(** [[totalRatio, totalWeight, ...members]] *)
Definition scored : Type := num * num * list annotated.

(** A number is truthy when it is neither zero nor NaN. *)
Definition truthy (a : num) : bool := (a <? nzero)%num || (nzero <? a)%num.

(** [a || b] *)
Definition or_else (a b : num) : num := if truthy a then a else b.

(** [return [item[1] / item[0], ...item];] *)
Definition calculateBenefit (it : item) : annotated :=
  let '(weight, benefit) := it in ((benefit / weight)%num, weight, benefit).

(** [return right[0] - left[0] || right[1] - left[1];] *)
Definition sortByBenefit (left right : annotated) : num :=
  let '(lratio, lweight, _) := left in
  let '(rratio, rweight, _) := right in
  or_else (rratio - lratio)%num (rweight - lweight)%num.

(** [permute(left, right)], with [result] passed in and out: the base case
    pushes [left]; otherwise the branch that includes [right[0]] runs
    first, then the branch that excludes it. *)
Fixpoint permute {A : Type} (left right : list A) (result : list (list A))
    : list (list A) :=
  match right with
  | [] => result ++ [left]
  | x :: right' =>
      let include := left ++ [x] in
      let exclude := left in
      permute exclude right' (permute include right' result)
  end.

Definition sortedCombinations {A : Type} (items : list A) : list (list A) :=
  permute [] items [].

(** The two [reduce] calls fold from the left, starting at [0]. *)
Definition calculateTotalBenefit (it : list annotated) : scored :=
  (fold_left (λ total current, (total + current.1.1)%num) it nzero,
   fold_left (λ total current, (total + current.1.2)%num) it nzero,
   it).

(** [threshold = Infinity] is a default parameter: it applies when the
    argument is [undefined], here [None]. *)
Definition filterByWeight (threshold : option num) : scored → bool :=
  let threshold := default ninfinity threshold in
  λ it, (it.1.2 <=? threshold)%num.

(** [return right[0] - left[0];] *)
Definition sortByTotalBenefit (left right : scored) : num :=
  (right.1.1 - left.1.1)%num.

(** [item.slice(1)] on an annotated item. *)
Definition unwrap (it : annotated) : item := (it.1.2, it.2).

Definition knapsack (items : list item) (maximumWeight : option num)
    : result (list item) :=
  let combinations :=
    sortedCombinations (array_sort sortByBenefit (calculateBenefit <$> items)) in
  let results :=
    array_sort sortByTotalBenefit
      (filter (λ it, filterByWeight maximumWeight it)
         (calculateTotalBenefit <$> combinations)) in
  match results with
  | [] => Throw TypeError
  | first :: _ => Return (unwrap <$> first.2)
  end.

(** The stages of [knapsack], named. *)
Definition ranked (items : list item) : list annotated :=
  array_sort sortByBenefit (calculateBenefit <$> items).

Definition feasible (items : list item) (maximumWeight : option num)
    : list scored :=
  filter (λ sc, filterByWeight maximumWeight sc)
    (calculateTotalBenefit <$> sortedCombinations (ranked items)).
End Pipeline.

Arguments item num : clear implicits.
Arguments annotated num : clear implicits.
Arguments scored num : clear implicits.

(** The collection of the README, in both number types. *)
Definition collection_double : list (float * float) :=
  [(1, 1); (2, 1); (3, 2); (3, 5); (4, 2); (4, 5)]%float.

Definition int (z : Z) : xnum := Fin (inject_Z z).

Definition collection_exact : list (xnum * xnum) :=
  [(int 1, int 1); (int 2, int 1); (int 3, int 2);
   (int 3, int 5); (int 4, int 2); (int 4, int 5)].

(** ** Inclusion masks

    A mask chooses, for each position of a sequence, whether the element is
    taken.  [masks n] lists the [2^n] masks of length [n] in the order in
    which [permute] reaches its base case: taking an element comes before
    leaving it out. *)
Fixpoint pick {A : Type} (mask : list bool) (l : list A) : list A :=
  match mask, l with
  | b :: mask', x :: l' => if b then x :: pick mask' l' else pick mask' l'
  | _, _ => []
  end.

Fixpoint masks (n : nat) : list (list bool) :=
  match n with
  | O => [[]]
  | S n' => (cons true <$> masks n') ++ (cons false <$> masks n')
  end.




(** ** What the specification speaks of, on exact numbers *)


(** The sums the specification speaks of, on plain items. *)
Definition totalWeight (its : list (item xnum)) : xnum :=
  xsum ((λ it, it.1) <$> its).

Definition totalRatio (its : list (item xnum)) : xnum :=
  xsum ((λ it, it.2 / it.1)%num <$> its).






(** ** The same functions over a store of mutable arrays

    Every JavaScript array is an object in the store; a variable holds a
    reference to it.  [push] and [sort] overwrite the array they are called
    on; a literal, a spread, [map], [filter] and [slice] allocate a new one.
    The store is a list of array contents and a reference is an index into
    it; allocation extends the list at its end.

    The run covers the shapes the program is written for: an array of
    items, each an array of numbers.  Where the program would use an array
    as a number or a number as an array (the engine then coerces), the run
    stops with [OutOfModel]. *)
Abbreviation loc := nat (only parsing).

Inductive value (num : Type) : Type :=
  | VNum (n : num)
  | VRef (l : loc).
Arguments VNum {num} n.
Arguments VRef {num} l.

Inductive outcome (A : Type) : Type :=
  | Done (a : A)
  | Raise (e : exception)
  | OutOfModel.
Arguments Done {A} a.
Arguments Raise {A} e.
Arguments OutOfModel {A}.

Abbreviation store num := (list (list (value num))) (only parsing).

(** A computation that reads and updates the store. *)
Definition run (num A : Type) : Type := store num → outcome A * store num.

#[export] Instance run_ret {num : Type} : MRet (run num) :=
  λ A x h, (Done x, h).

#[export] Instance run_bind {num : Type} : MBind (run num) :=
  λ A B k m h,
    match m h with
    | (Done x, h') => k x h'
    | (Raise e, h') => (Raise e, h')
    | (OutOfModel, h') => (OutOfModel, h')
    end.

Section Store.
Context {num : Type}.

Definition raise {A : Type} (e : exception) : run num A := λ h, (Raise e, h).
Definition out_of_model {A : Type} : run num A := λ h, (OutOfModel, h).

(** A new array, at the end of the store. *)
Definition alloc (arr : list (value num)) : run num loc :=
  λ h, (Done (length h), h ++ [arr]).

Definition read (l : loc) : run num (list (value num)) :=
  λ h, match h !! l with
       | Some arr => (Done arr, h)
       | None => (OutOfModel, h)
       end.

(** Overwrite the contents of the array at [l]. *)
Definition write (l : loc) (arr : list (value num)) : run num unit :=
  λ h, (Done (), <[l := arr]> h).
End Store.

Section StorePipeline.
Context {num : Type} `{Number num}.

(** An element used as a number, and an element used as an array. *)
Definition number (v : option (value num)) : run num num :=
  match v with
  | Some (VNum n) => mret n
  | _ => out_of_model
  end.

Definition array (v : value num) : run num (list (value num)) :=
  match v with
  | VRef l => read l
  | VNum _ => out_of_model
  end.

Fixpoint for_each {A B : Type} (f : A → run num B) (l : list A)
    : run num (list B) :=
  match l with
  | [] => mret []
  | x :: l' => y ← f x; ys ← for_each f l'; mret (y :: ys)
  end.

(** [a.map(f)]: a new array of the results. *)
Definition array_map (f : value num → run num (value num)) (a : loc)
    : run num loc :=
  arr ← read a; res ← for_each f arr; alloc res.

(** [a.filter(f)]: a new array of the elements that pass. *)
Fixpoint keep (f : value num → run num bool) (l : list (value num))
    : run num (list (value num)) :=
  match l with
  | [] => mret []
  | x :: l' =>
      b ← f x; ys ← keep f l'; mret (if (b : bool) then x :: ys else ys)
  end.

Definition array_filter (f : value num → run num bool) (a : loc)
    : run num loc :=
  arr ← read a; res ← keep f arr; alloc res.

(** [a.reduce(f, init)] *)
Fixpoint array_reduce {A : Type} (f : A → value num → run num A)
    (l : list (value num)) (init : A) : run num A :=
  match l with
  | [] => mret init
  | x :: l' => total ← f init x; array_reduce f l' total
  end.

(** [a.sort(comparefn)]: the array at [a] is overwritten with its sorted
    contents, and [a] is returned. *)
Fixpoint sort_insert_run (comparefn : value num → value num → run num num)
    (x : value num) (l : list (value num)) : run num (list (value num)) :=
  match l with
  | [] => mret [x]
  | y :: l' =>
      c ← comparefn x y;
      if (nzero <? c)%num
      then (r ← sort_insert_run comparefn x l'; mret (y :: r))
      else mret (x :: l)
  end.

Fixpoint sort_run (comparefn : value num → value num → run num num)
    (l : list (value num)) : run num (list (value num)) :=
  match l with
  | [] => mret []
  | x :: l' => s ← sort_run comparefn l'; sort_insert_run comparefn x s
  end.

Definition array_sort_in_place
    (comparefn : value num → value num → run num num) (a : loc)
    : run num loc :=
  arr ← read a; sorted ← sort_run comparefn arr; write a sorted;; mret a.

(** [a.push(v)] *)
Definition push (a : loc) (v : value num) : run num unit :=
  arr ← read a; write a (arr ++ [v]).

Definition calculateBenefit_run (item : value num) : run num (value num) :=
  arr ← array item;
  benefit ← number (arr !! 1);
  weight ← number (arr !! 0);
  r ← alloc (VNum (benefit / weight)%num :: arr);
  mret (VRef r).

Definition sortByBenefit_run (left right : value num) : run num num :=
  l ← array left;
  r ← array right;
  r0 ← number (r !! 0);
  l0 ← number (l !! 0);
  if truthy (r0 - l0)%num then mret (r0 - l0)%num
  else (r1 ← number (r !! 1); l1 ← number (l !! 1); mret (r1 - l1)%num).

(** [right] is passed by its contents: the arrays that [right.slice(1)]
    allocates are only ever read. *)
Fixpoint permute_run (result left : loc) (right : list (value num))
    : run num unit :=
  match right with
  | [] => push result (VRef left)
  | x :: right' =>
      l ← read left;
      include ← alloc (l ++ [x]);
      let exclude := left in
      alloc right';;
      permute_run result include right';;
      alloc right';;
      permute_run result exclude right'
  end.

Definition sortedCombinations_run (items : loc) : run num loc :=
  result ← alloc [];
  left ← alloc [];
  right ← read items;
  permute_run result left right;;
  mret result.

Definition calculateTotalBenefit_run (item : value num) : run num (value num) :=
  arr ← array item;
  ratio ← array_reduce (λ total current,
             c ← array current; c0 ← number (c !! 0); mret (total + c0)%num)
           arr nzero;
  weight ← array_reduce (λ total current,
             c ← array current; c1 ← number (c !! 1); mret (total + c1)%num)
           arr nzero;
  r ← alloc (VNum ratio :: VNum weight :: arr);
  mret (VRef r).

Definition filterByWeight_run (threshold : option num) (item : value num)
    : run num bool :=
  let threshold := default ninfinity threshold in
  arr ← array item;
  weight ← number (arr !! 1);
  mret (weight <=? threshold)%num.

Definition sortByTotalBenefit_run (left right : value num) : run num num :=
  l ← array left;
  r ← array right;
  r0 ← number (r !! 0);
  l0 ← number (l !! 0);
  mret (r0 - l0)%num.

Definition slice_run (start : nat) (v : value num) : run num (value num) :=
  arr ← array v; r ← alloc (drop start arr); mret (VRef r).

Definition knapsack_run (items : loc) (maximumWeight : option num)
    : run num loc :=
  annotated ← array_map calculateBenefit_run items;
  ranked ← array_sort_in_place sortByBenefit_run annotated;
  combinations ← sortedCombinations_run ranked;
  scored ← array_map calculateTotalBenefit_run combinations;
  filtered ← array_filter (filterByWeight_run maximumWeight) scored;
  results ← array_sort_in_place sortByTotalBenefit_run filtered;
  arr ← read results;
  match arr !! 0 with
  | None => raise TypeError
  | Some first =>
      members ← slice_run 2 first;
      m ← array members;
      res ← for_each (slice_run 1) m;
      alloc res
  end.

(** Reading a collection of items off the store, and putting one there. *)
Definition item_at (h : store num) (v : value num) : option (item num) :=
  match v with
  | VRef l =>
      match h !! l with
      | Some [VNum weight; VNum benefit] => Some (weight, benefit)
      | _ => None
      end
  | VNum _ => None
  end.

Definition items_at (h : store num) (l : loc) : option (list (item num)) :=
  arr ← h !! l; mapM (item_at h) arr.

Definition store_items (items : list (item num)) : run num loc :=
  refs ← for_each (λ it : item num,
            r ← alloc [VNum it.1; VNum it.2]; mret (VRef r)) items;
  alloc refs.
End StorePipeline.

(** What a value of the store stands for: an annotated item, a subset, a
    scored subset; and what a run shows to the caller. *)
Section Views.
Context {num : Type}.

Definition annotated_at (h : store num) (v : value num)
    : option (annotated num) :=
  match v with
  | VRef l =>
      match h !! l with
      | Some [VNum ratio; VNum weight; VNum benefit] =>
          Some (ratio, weight, benefit)
      | _ => None
      end
  | VNum _ => None
  end.

Definition subset_at (h : store num) (v : value num)
    : option (list (annotated num)) :=
  match v with
  | VRef l => arr ← h !! l; mapM (annotated_at h) arr
  | VNum _ => None
  end.

Definition scored_at (h : store num) (v : value num)
    : option (scored num) :=
  match v with
  | VRef l =>
      match h !! l with
      | Some (VNum ratio :: VNum weight :: arr) =>
          members ← mapM (annotated_at h) arr; Some (ratio, weight, members)
      | _ => None
      end
  | VNum _ => None
  end.

Definition observe (o : outcome loc * store num)
    : option (result (list (item num))) :=
  match o with
  | (Done l, h) => Return <$> items_at h l
  | (Raise e, _) => Some (Throw e)
  | (OutOfModel, _) => None
  end.
End Views.

(** A view is stable when it survives the growth of the store. *)
Definition stable {num A : Type}
    (view : store num → value num → option A) : Prop :=
  ∀ h k v x, view h v = Some x → view (h ++ k) v = Some x.

(** The README collection in an empty store: six item arrays, then the
    array of their references at address 6. *)
Definition readme_store : store float :=
  (store_items collection_double []).2.

(** [m] leaves the first [n] arrays of the store as they are, whatever the
    outcome, and what it returns satisfies [Q]. *)
Definition preserves {num A : Type} (n : nat) (m : run num A) (Q : A → Prop)
    : Prop :=
  ∀ h, n ≤ length h →
    n ≤ length (m h).2
    ∧ take n (m h).2 = take n h
    ∧ ∀ x, (m h).1 = Done x → Q x.

(** [m] never shortens the store. *)
Definition grows {num A : Type} (m : run num A) : Prop :=
  ∀ h, length h ≤ length (m h).2.

(** * Theorems *)

(** ** The enumerator *)
Section Enumerator.
Context {A : Type}.
Implicit Types (l left right s : list A) (result : list (list A)).
Implicit Types (m : list bool).

Lemma length_masks n : length (masks n) = 2 ^ n.
Proof.
  induction n as [|n IH]; [done|].
  cbn [masks]. rewrite length_app, !length_fmap, IH, Nat.pow_succ_r'. lia.
Qed.

Lemma elem_of_masks n m : m ∈ masks n ↔ length m = n.
Proof.
  revert m. induction n as [|n IH]; intros m; cbn [masks].
  - rewrite list_elem_of_singleton. destruct m; naive_solver.
  - rewrite elem_of_app, !list_elem_of_fmap. split.
    + intros [(m' & -> & Hm')|(m' & -> & Hm')]; apply IH in Hm'; by cbn; f_equal.
    + destruct m as [|[] m']; [done|..]; intros [= Hlen]; apply IH in Hlen; eauto.
Qed.

Lemma NoDup_masks n : NoDup (masks n).
Proof.
  induction n as [|n IH]; cbn [masks]; [apply NoDup_singleton|].
  apply NoDup_app. split_and!.
  - apply (NoDup_fmap_2 _), IH.
  - intros m (m1 & -> & _)%list_elem_of_fmap (m2 & [=] & _)%list_elem_of_fmap.
  - apply (NoDup_fmap_2 _), IH.
Qed.

Lemma pick_sublist m l : pick m l `sublist_of` l.
Proof.
  revert m. induction l as [|x l IH]; intros [|[] m]; cbn;
    try apply sublist_nil_l; [by apply sublist_skip|by apply sublist_cons].
Qed.

Lemma sublist_pick s l : s `sublist_of` l → ∃ m, length m = length l ∧ s = pick m l.
Proof.
  induction 1 as [|x s l _ (m & Hm & ->)|x s l _ (m & Hm & ->)].
  - by exists [].
  - exists (true :: m). by cbn; rewrite Hm.
  - exists (false :: m). by cbn; rewrite Hm.
Qed.

Lemma pick_inj l m1 m2 :
  NoDup l → length m1 = length l → length m2 = length l →
  pick m1 l = pick m2 l → m1 = m2.
Proof.
  intros Hl. revert m1 m2.
  induction Hl as [|x l Hx _ IH]; intros [|b1 m1] [|b2 m2]; try done.
  intros [= H1] [= H2] Heq. cbn in Heq.
  assert (∀ m m', x :: pick m l ≠ pick m' l) as Hne.
  { intros m m' E. apply Hx. eapply (sublist_subseteq _ _ (pick_sublist m' l)).
    rewrite <-E. left. }
  destruct b1, b2; simplify_eq; try (by exfalso; eapply Hne); f_equal; eauto.
Qed.

(** What [permute] adds to [result]: the subsequences of [right], each
    behind [left], in the order of [masks]. *)
Lemma permute_masks right left result :
  permute left right result =
  result ++ ((λ m, left ++ pick m right) <$> masks (length right)).
Proof.
  revert left result. induction right as [|x right IH]; intros left result; cbn.
  - by rewrite app_nil_r.
  - rewrite !IH, fmap_app, <-!list_fmap_compose, <-app_assoc. do 2 f_equal.
    apply list_fmap_ext. intros _ m _. cbn. by rewrite <-app_assoc.
Qed.




Lemma sortedCombinations_masks l :
  sortedCombinations l = (λ m, pick m l) <$> masks (length l).
Proof. unfold sortedCombinations. by rewrite permute_masks. Qed.

Lemma elem_of_sortedCombinations s l :
  s ∈ sortedCombinations l ↔ s `sublist_of` l.
Proof.
  rewrite sortedCombinations_masks, list_elem_of_fmap. split.
  - intros (m & -> & _). apply pick_sublist.
  - intros (m & Hm & ->)%sublist_pick. exists m. by rewrite elem_of_masks.
Qed.


Lemma length_sortedCombinations l :
  length (sortedCombinations l) = 2 ^ length l.
Proof. by rewrite sortedCombinations_masks, length_fmap, length_masks. Qed.

Lemma NoDup_sortedCombinations l : NoDup l → NoDup (sortedCombinations l).
Proof.
  intros Hl. rewrite sortedCombinations_masks.
  apply NoDup_fmap_2_strong; [|apply NoDup_masks].
  intros m1 m2 ?%elem_of_masks ?%elem_of_masks. by apply pick_inj.
Qed.

(** C2. For an input of length N, [sortedCombinations] returns [2^N]
    sequences: the image, in order, of the [2^N] pairwise different
    inclusion masks of length N (so every choice of positions occurs at
    exactly one place of the output); a sequence occurs in the output iff
    it is an order-preserving subsequence of the input; and when the
    elements of the input are pairwise different, so are the sequences of
    the output. *)
Theorem sortedCombinations_power_set l :
  length (sortedCombinations l) = 2 ^ length l
  ∧ sortedCombinations l = (λ m, pick m l) <$> masks (length l)
  ∧ NoDup (masks (length l))
  ∧ (∀ m, m ∈ masks (length l) ↔ length m = length l)
  ∧ (∀ s, s ∈ sortedCombinations l ↔ s `sublist_of` l)
  ∧ (NoDup l → NoDup (sortedCombinations l)).
Proof.
  split_and!.
  - apply length_sortedCombinations.
  - apply sortedCombinations_masks.
  - apply NoDup_masks.
  - intros m. apply elem_of_masks.
  - intros s. apply elem_of_sortedCombinations.
  - apply NoDup_sortedCombinations.
Qed.
End Enumerator.

(** ** The sort *)
Section ArraySortFacts.
Context {num : Type} `{Number num} {A : Type}.
Variable comparefn : A → A → num.
Implicit Types (x y : A) (l : list A).

Lemma sort_insert_Permutation x l : sort_insert comparefn x l ≡ₚ x :: l.
Proof.
  induction l as [|y l IH]; cbn; [done|].
  destruct (nzero <? comparefn x y)%num; [|done].
  by rewrite IH, Permutation_swap.
Qed.

Lemma array_sort_Permutation l : array_sort comparefn l ≡ₚ l.
Proof.
  induction l as [|x l IH]; cbn; [done|].
  by rewrite sort_insert_Permutation, IH.
Qed.

Lemma elem_of_array_sort x l : x ∈ array_sort comparefn l ↔ x ∈ l.
Proof. by rewrite array_sort_Permutation. Qed.

Lemma head_sort_insert x l :
  head (sort_insert comparefn x l) =
  match head l with
  | None => Some x
  | Some y => Some (if (nzero <? comparefn x y)%num then y else x)
  end.
Proof. destruct l as [|y l]; cbn; [done|]. by destruct (nzero <? _)%num. Qed.

Lemma head_array_sort l : head (array_sort comparefn l) = first_sorted comparefn l.
Proof.
  induction l as [|x l IH]; cbn; [done|]. by rewrite head_sort_insert, IH.
Qed.

(** On a set [P] of elements where "not behind" is total and transitive,
    the sort puts no element before one it has to go behind. *)
Section Consistent.
Variable P : A → Prop.
Hypothesis behind_total :
  ∀ x y, P x → P y → behind comparefn x y → ¬ behind comparefn y x.
Hypothesis behind_trans :
  ∀ x y z, P x → P y → P z →
    ¬ behind comparefn x y → ¬ behind comparefn y z → ¬ behind comparefn x z.



Lemma tied_spec x y :
  tied comparefn x y ↔ ¬ behind comparefn x y ∧ ¬ behind comparefn y x.
Proof.
  unfold tied, behind.
  rewrite andb_True, !negb_True, !Is_true_true. tauto.
Qed.

(** The sort is stable: the elements tied with any given one keep their
    order. *)
Lemma sort_insert_stable e x l :
  P e → P x → Forall P l →
  filter (λ y, tied comparefn e y) (sort_insert comparefn x l)
  = filter (λ y, tied comparefn e y) (x :: l).
Proof using behind_trans.
  intros He Hx. induction 1 as [|y l Hy Hl IH]; [done|]. cbn [sort_insert].
  destruct (nzero <? comparefn x y)%num eqn:E; [|done].
  rewrite filter_cons, IH, !filter_cons.
  destruct (decide (tied comparefn e y)) as [[Hey Hye]%tied_spec|]; [|done].
  destruct (decide (tied comparefn e x)) as [[Hex Hxe]%tied_spec|]; [|done].
  destruct (behind_trans x e y); auto.
Qed.

Lemma array_sort_stable e l :
  P e → Forall P l →
  filter (λ y, tied comparefn e y) (array_sort comparefn l)
  = filter (λ y, tied comparefn e y) l.
Proof using behind_trans.
  intros He. induction 1 as [|x l Hx Hl IH]; [done|]. cbn [array_sort].
  rewrite sort_insert_stable, !filter_cons, IH; [done..|].
  by rewrite array_sort_Permutation.
Qed.

End Consistent.
End ArraySortFacts.

(** ** Exact numbers *)

Section Exact.
Implicit Types (a b c : xnum) (x y z : Q).



#[export] Instance xeq_equivalence : Equivalence (≡@{xnum}).
Proof.
  split.
  - by intros [].
  - intros [] []; cbn; done.
  - intros [] [] []; cbn; try done. by intros -> ->.
Qed.

#[export] Instance Fin_proper : Proper (Qeq ==> (≡)) Fin.
Proof. by intros x y E. Qed.

Ltac fin_equiv :=
  repeat match goal with
  | H : Fin ?x ≡ Fin ?y |- _ => change (x == y)%Q in H
  | |- Fin ?x ≡ Fin ?y => change (x == y)%Q
  end.

#[export] Instance xadd_proper : Proper ((≡) ==> (≡) ==> (≡)) xadd.
Proof.
  intros [] [] E1 [] [] E2; try (by cbn in E1); try (by cbn in E2); cbn; try done.
  fin_equiv. by rewrite E1, E2.
Qed.

#[export] Instance xleb_proper : Proper ((≡) ==> (≡) ==> (=)) xleb.
Proof.
  intros [] [] E1 [] [] E2; try (by cbn in E1); try (by cbn in E2); cbn; try done.
  fin_equiv. by rewrite E1, E2.
Qed.

#[export] Instance xltb_proper : Proper ((≡) ==> (≡) ==> (=)) xltb.
Proof.
  intros [] [] E1 [] [] E2; try (by cbn in E1); try (by cbn in E2); cbn; try done.
  fin_equiv. unfold Qltb. by rewrite E1, E2.
Qed.

Lemma xadd_comm a b : xadd a b ≡ xadd b a.
Proof. destruct a, b; cbn; try done; fin_equiv; ring. Qed.

Lemma xadd_assoc a b c : xadd a (xadd b c) ≡ xadd (xadd a b) c.
Proof. destruct a, b, c; cbn; try done; fin_equiv; ring. Qed.



#[export] Instance xsum_proper : Proper ((≡ₚ) ==> (≡)) xsum.
Proof.
  induction 1 as [|a l1 l2 _ IH|a b l|l1 l2 l3 _ IH1 _ IH2]; cbn.
  - done.
  - by rewrite IH.
  - by rewrite !xadd_assoc, (xadd_comm b a).
  - by rewrite IH1.
Qed.

End Exact.

(** ** The pipeline, for every number type *)
Section PipelineFacts.
Context {num : Type} `{Number num}.
Implicit Types (it : item num) (items out : list (item num)).
Implicit Types (a : annotated num) (s : list (annotated num)).
Implicit Types (sc : scored num) (maximumWeight : option num).

Lemma knapsack_first_sorted items maximumWeight :
  knapsack items maximumWeight =
  match first_sorted sortByTotalBenefit (feasible items maximumWeight) with
  | None => Throw TypeError
  | Some first => Return (unwrap <$> first.2)
  end.
Proof.
  unfold knapsack. rewrite <-head_array_sort. fold (ranked items).
  fold (feasible items maximumWeight). by destruct (array_sort _ _).
Qed.

Lemma first_sorted_None {A : Type} (cmp : A → A → num) (l : list A) :
  first_sorted cmp l = None ↔ l = [].
Proof.
  split; [|by intros ->]. destruct l as [|x l]; [done|]; cbn.
  by destruct (first_sorted cmp l).
Qed.

Lemma first_sorted_elem_of {A : Type} (cmp : A → A → num) (l : list A) r :
  first_sorted cmp l = Some r → r ∈ l.
Proof.
  rewrite <-head_array_sort. intros Hr.
  apply (elem_of_array_sort cmp). destruct (array_sort cmp l); simplify_eq/=. left.
Qed.

Lemma unwrap_calculateBenefit it : unwrap (calculateBenefit it) = it.
Proof. by destruct it. Qed.

Lemma unwrap_annotate items : unwrap <$> (calculateBenefit <$> items) = items.
Proof.
  induction items as [|it items IH]; cbn; [done|].
  by rewrite unwrap_calculateBenefit, IH.
Qed.

Lemma elem_of_ranked a items :
  a ∈ ranked items ↔ ∃ it, a = calculateBenefit it ∧ it ∈ items.
Proof. unfold ranked. by rewrite elem_of_array_sort, list_elem_of_fmap. Qed.

Lemma ranked_Permutation items : ranked items ≡ₚ calculateBenefit <$> items.
Proof. apply array_sort_Permutation. Qed.

Lemma annotate_unwrap items s :
  s `sublist_of` ranked items → calculateBenefit <$> (unwrap <$> s) = s.
Proof.
  intros Hs%sublist_subseteq. induction s as [|a s IH]; [done|].
  rewrite !fmap_cons, IH by (intros b Hb; apply Hs; by right). f_equal.
  assert (a ∈ ranked items) as (it & -> & _)%elem_of_ranked by (apply Hs; left).
  by rewrite unwrap_calculateBenefit.
Qed.

Lemma elem_of_feasible sc items maximumWeight :
  sc ∈ feasible items maximumWeight ↔
  ∃ s, sc = calculateTotalBenefit s ∧ s `sublist_of` ranked items
       ∧ filterByWeight maximumWeight sc = true.
Proof.
  unfold feasible. rewrite list_elem_of_filter, list_elem_of_fmap, Is_true_true.
  setoid_rewrite elem_of_sortedCombinations. split.
  - intros (Hw & s & -> & Hs). by exists s.
  - intros (s & -> & Hs & Hw). split; [done|]. by exists s.
Qed.

(** A returned value is the unwrapped member list of a feasible scored
    subsequence of the ranked sequence. *)
Lemma knapsack_Return items maximumWeight out :
  knapsack items maximumWeight = Return out →
  ∃ s, first_sorted sortByTotalBenefit (feasible items maximumWeight)
         = Some (calculateTotalBenefit s)
       ∧ s `sublist_of` ranked items
       ∧ filterByWeight maximumWeight (calculateTotalBenefit s) = true
       ∧ out = unwrap <$> s.
Proof.
  rewrite knapsack_first_sorted.
  destruct (first_sorted _ _) as [first|] eqn:Hfirst; [|done].
  intros [= <-]. pose proof (first_sorted_elem_of _ _ _ Hfirst) as Hin.
  apply elem_of_feasible in Hin as (s & -> & Hs & Hw). by exists s.
Qed.

Lemma knapsack_Throw items maximumWeight e :
  knapsack items maximumWeight = Throw e →
  e = TypeError ∧ feasible items maximumWeight = [].
Proof.
  rewrite knapsack_first_sorted.
  destruct (first_sorted _ _) as [first|] eqn:Hfirst; [done|].
  intros [= <-]. by apply first_sorted_None in Hfirst.
Qed.

Lemma knapsack_submseteq items maximumWeight out :
  knapsack items maximumWeight = Return out → out ⊆+ items.
Proof.
  intros (s & _ & Hs & _ & ->)%knapsack_Return.
  rewrite <-(unwrap_annotate items), <-ranked_Permutation.
  by apply sublist_submseteq, fmap_sublist.
Qed.

(** C9. Annotating an item and dropping the first component gives the
    item back; hence whatever [knapsack] returns is made of pairs of the
    input, each used at most as often as it occurs there. *)
Theorem unwrap_annotate_identity :
  (∀ it, unwrap (calculateBenefit it) = it)
  ∧ (∀ items maximumWeight out,
       knapsack items maximumWeight = Return out →
       (∀ it, it ∈ out → it ∈ items) ∧ out ⊆+ items).
Proof.
  split; [apply unwrap_calculateBenefit|].
  intros items maximumWeight out Hout%knapsack_submseteq. split; [|done].
  intros it Hit. by eapply elem_of_submseteq.
Qed.
End PipelineFacts.

(** ** The pipeline on exact numbers *)

Section ExactPipeline.
Implicit Types (it : item xnum) (items out : list (item xnum)).
Implicit Types (a : annotated xnum) (s : list (annotated xnum)).
Implicit Types (sc : scored xnum) (maximumWeight : option xnum).






(** *** Valid items keep every number of the pipeline finite *)







(** *** The two comparators on finite numbers *)



(** *** The selection *)









(** *** The order of the output *)









(** *** Ties *)





(** *** A negative capacity *)




End ExactPipeline.


(** ** No validation *)
Section NoValidation.
Context {num : Type} `{Number num}.

(** C5, amended. No input makes the pipeline fail with [InvalidItem]:
    [calculateBenefit] checks nothing and returns
    [[benefit / weight, weight, benefit]] for every item, all [2^N]
    subsets are enumerated whatever the items are, and the only exception
    [knapsack] raises is the [TypeError] of an empty filtered array. *)
Theorem knapsack_no_validation (items : list (item num)) maximumWeight :
  (∀ it : item num, calculateBenefit it = ((it.2 / it.1)%num, it.1, it.2))
  ∧ length (sortedCombinations (ranked items)) = 2 ^ length items
  ∧ knapsack items maximumWeight ≠ Throw InvalidItem
  ∧ (∀ e, knapsack items maximumWeight = Throw e →
          e = TypeError ∧ feasible items maximumWeight = []).
Proof.
  split_and!.
  - by intros [w b].
  - by rewrite length_sortedCombinations, ranked_Permutation, length_fmap.
  - by intros [[=] _]%knapsack_Throw.
  - intros e. apply knapsack_Throw.
Qed.
End NoValidation.

(** C5 as stated fails: items with a zero, a negative or an infinite weight
    are annotated like any other (the ratio of [[0, 1]] is [Infinity]) and
    [knapsack] returns a value for them, in both number types. *)
Lemma knapsack_accepts_invalid_items :
  calculateBenefit (0%float, 1%float) = (infinity, 0%float, 1%float)
  ∧ knapsack [(0%float, 1%float)] None = Return [(0%float, 1%float)]
  ∧ knapsack [((-1)%float, 1%float)] None = Return []
  ∧ knapsack [(infinity, 1%float)] None = Return [(infinity, 1%float)]
  ∧ calculateBenefit (int 0, int 1) = (PInf, int 0, int 1)
  ∧ knapsack [(int 0, int 1)] None = Return [(int 0, int 1)]
  ∧ knapsack [(int (-1), int 1)] None = Return []
  ∧ knapsack [(PInf, int 1)] None = Return [(PInf, int 1)]
  ∧ knapsack [(int 0, int 1)] None ≠ Throw InvalidItem.
Proof. split_and!; by vm_compute. Qed.

(** ** The scenario of the README *)

(** C4, amended. On the README collection [knapsack] returns
    [[3,5],[4,5],[1,1],[3,2]] for capacity 12, [[1,1]] for capacities 1 and
    2, [[3,5]] for capacity 3, and without a capacity all six items in the
    order of the Ranker, [[3,5],[4,5],[1,1],[3,2],[4,2],[2,1]]; in binary64
    and in exact arithmetic alike. *)
Theorem knapsack_readme_scenario :
  (knapsack collection_double (Some 12%float)
     = Return [(3, 5); (4, 5); (1, 1); (3, 2)]%float
   ∧ knapsack collection_double (Some 1%float) = Return [(1, 1)]%float
   ∧ knapsack collection_double (Some 2%float) = Return [(1, 1)]%float
   ∧ knapsack collection_double (Some 3%float) = Return [(3, 5)]%float
   ∧ knapsack collection_double None
     = Return [(3, 5); (4, 5); (1, 1); (3, 2); (4, 2); (2, 1)]%float)
  ∧ (knapsack collection_exact (Some (int 12))
     = Return [(int 3, int 5); (int 4, int 5); (int 1, int 1); (int 3, int 2)]
   ∧ knapsack collection_exact (Some (int 1)) = Return [(int 1, int 1)]
   ∧ knapsack collection_exact (Some (int 2)) = Return [(int 1, int 1)]
   ∧ knapsack collection_exact (Some (int 3)) = Return [(int 3, int 5)]
   ∧ knapsack collection_exact None
     = Return [(int 3, int 5); (int 4, int 5); (int 1, int 1);
               (int 3, int 2); (int 4, int 2); (int 2, int 1)]).
Proof. split; split_and!; by vm_compute. Qed.

(** C4 as stated fails in its last case: without a capacity the items come
    back in the order of the Ranker, not in the order of the input that the
    claim lists. *)
Lemma knapsack_unconstrained_not_input_order :
  knapsack collection_double None ≠ Return collection_double
  ∧ knapsack collection_exact None ≠ Return collection_exact.
Proof. split; by vm_compute. Qed.

(** ** The run on the store computes what the pipeline computes *)
Section Refine.
Context {num : Type} `{Number num}.
Implicit Types (h k : list (list (value num))) (l a : nat).
Implicit Types (arr : list (value num)) (v : value num).

Lemma bind_Done {A B : Type} (m : run num A) (f : A → run num B) h x h' :
  m h = (Done x, h') → (m ≫= f) h = f x h'.
Proof. intros E. unfold mbind, run_bind. by rewrite E. Qed.

Lemma read_Done h l arr : h !! l = Some arr → read l h = (Done arr, h).
Proof. intros E. unfold read. by rewrite E. Qed.

Lemma item_at_stable : stable (num := num) item_at.
Proof.
  intros h k [|l] x; [done|]. cbn.
  destruct (h !! l) as [arr|] eqn:E; [|done].
  by rewrite (lookup_app_l_Some _ _ _ _ E).
Qed.

Lemma annotated_at_stable : stable (num := num) annotated_at.
Proof.
  intros h k [|l] x; [done|]. cbn.
  destruct (h !! l) as [arr|] eqn:E; [|done].
  by rewrite (lookup_app_l_Some _ _ _ _ E).
Qed.

Lemma Forall2_stable {A : Type} view h k arr (xs : list A) :
  stable view →
  Forall2 (λ v x, view h v = Some x) arr xs →
  Forall2 (λ v x, view (h ++ k) v = Some x) arr xs.
Proof. intros Hst Hall. eapply Forall2_impl; [done|]. intros v x. apply Hst. Qed.

Lemma mapM_stable {A : Type} (view : _ → _ → option A) h k arr xs :
  stable view →
  mapM (view h) arr = Some xs → mapM (view (h ++ k)) arr = Some xs.
Proof. rewrite !mapM_Some. apply Forall2_stable. Qed.

Lemma subset_at_stable : stable (num := num) subset_at.
Proof.
  intros h k [|l] x; [done|]. cbn.
  destruct (h !! l) as [arr|] eqn:E; [|done].
  rewrite (lookup_app_l_Some _ _ _ _ E). cbn.
  apply mapM_stable, annotated_at_stable.
Qed.

Lemma scored_at_stable : stable (num := num) scored_at.
Proof.
  intros h k [|l] x; [done|]. cbn.
  destruct (h !! l) as [arr|] eqn:E; [|done].
  rewrite (lookup_app_l_Some _ _ _ _ E).
  destruct arr as [|[r|] [|[w|] arr]]; try done.
  destruct (mapM (annotated_at h) arr) as [s|] eqn:Es; [|done].
  by rewrite (mapM_stable _ _ _ _ _ annotated_at_stable Es).
Qed.


(** [for_each] on a run that only allocates: the views of the inputs carry
    over to the views of the outputs. *)
Lemma for_each_views {A B : Type}
    (f : value num → run num (value num))
    (view_in : _ → _ → option A) (view_out : _ → _ → option B) (g : A → B)
    arr xs h :
  stable view_in → stable view_out →
  (∀ h v x, view_in h v = Some x →
     ∃ k w, f v h = (Done w, h ++ k) ∧ view_out (h ++ k) w = Some (g x)) →
  Forall2 (λ v x, view_in h v = Some x) arr xs →
  ∃ k ws, for_each f arr h = (Done ws, h ++ k)
    ∧ Forall2 (λ w y, view_out (h ++ k) w = Some y) ws (g <$> xs).
Proof.
  intros Hin Hout Hf Hall. revert xs h Hall.
  induction arr as [|v arr IH]; intros xs h Hall.
  { apply Forall2_nil_inv_l in Hall as ->. exists [], []. cbn.
    by rewrite app_nil_r. }
  apply Forall2_cons_inv_l in Hall as (x & xs' & Hv & Hall & ->).
  destruct (Hf h v x Hv) as (k1 & w & Ef & Hw).
  destruct (IH xs' (h ++ k1)) as (k2 & ws & Eall & Hws).
  { by apply Forall2_stable. }
  exists (k1 ++ k2), (w :: ws). rewrite !app_assoc. cbn [for_each].
  rewrite (bind_Done _ _ _ _ _ Ef), (bind_Done _ _ _ _ _ Eall).
  split; [done|]. constructor; [|done]. by apply Hout.
Qed.

(** [keep] with a test that reads only; [R] relates the elements of the
    array with what they stand for. *)
Lemma keep_views {A : Type} (f : value num → run num bool)
    (R : value num → A → Prop) (p : A → bool) arr xs h :
  (∀ v x, R v x → f v h = (Done (p x), h)) →
  Forall2 R arr xs →
  ∃ ws, keep f arr h = (Done ws, h) ∧ Forall2 R ws (filter (λ x, p x) xs).
Proof.
  intros Hf. induction 1 as [|v x arr xs Hv Hall (ws & E & Hws)]; cbn [keep].
  { exists []. split; [reflexivity|constructor]. }
  rewrite (bind_Done _ _ _ _ _ (Hf v x Hv)), (bind_Done _ _ _ _ _ E).
  rewrite filter_cons. case_decide as Hp.
  - apply Is_true_true in Hp. rewrite Hp. exists (v :: ws).
    split; [reflexivity|by constructor].
  - apply Is_true_false in Hp. rewrite Hp. exists ws. split; [reflexivity|done].
Qed.

Lemma array_reduce_views {A B : Type} (f : B → value num → run num B)
    (R : value num → A → Prop) (g : B → A → B) arr xs init h :
  (∀ total v x, R v x → f total v h = (Done (g total x), h)) →
  Forall2 R arr xs →
  array_reduce f arr init h = (Done (fold_left g xs init), h).
Proof.
  intros Hf Hall. revert init.
  induction Hall as [|v x arr xs Hv Hall IH]; intros init; cbn; [reflexivity|].
  by rewrite (bind_Done _ _ _ _ _ (Hf init v x Hv)), IH.
Qed.

(** The sort of the store is the sort of what the elements stand for. *)
Lemma sort_insert_run_views {A : Type}
    (comparefn_run : value num → value num → run num num)
    (R : value num → A → Prop) (comparefn : A → A → num) v x arr xs h :
  (∀ v1 v2 x1 x2, R v1 x1 → R v2 x2 →
     comparefn_run v1 v2 h = (Done (comparefn x1 x2), h)) →
  R v x → Forall2 R arr xs →
  ∃ ws, sort_insert_run comparefn_run v arr h = (Done ws, h)
    ∧ Forall2 R ws (sort_insert comparefn x xs).
Proof.
  intros Hcmp Hv.
  induction 1 as [|w y arr xs Hw Hall (ws & E & Hws)]; cbn.
  { exists [v]. split; [reflexivity|]. by repeat constructor. }
  rewrite (bind_Done _ _ _ _ _ (Hcmp v w x y Hv Hw)).
  destruct (nzero <? comparefn x y)%num.
  - rewrite (bind_Done _ _ _ _ _ E). exists (w :: ws).
    split; [reflexivity|by constructor].
  - exists (v :: w :: arr). split; [reflexivity|]. by repeat constructor.
Qed.

Lemma sort_run_views {A : Type}
    (comparefn_run : value num → value num → run num num)
    (R : value num → A → Prop) (comparefn : A → A → num) arr xs h :
  (∀ v1 v2 x1 x2, R v1 x1 → R v2 x2 →
     comparefn_run v1 v2 h = (Done (comparefn x1 x2), h)) →
  Forall2 R arr xs →
  ∃ ws, sort_run comparefn_run arr h = (Done ws, h)
    ∧ Forall2 R ws (array_sort comparefn xs).
Proof.
  intros Hcmp.
  induction 1 as [|v x arr xs Hv Hall (ws & E & Hws)]; cbn.
  { exists []. split; [reflexivity|constructor]. }
  rewrite (bind_Done _ _ _ _ _ E). by eapply sort_insert_run_views.
Qed.

(** *** The stages *)

Lemma lookup_snoc h arr : (h ++ [arr]) !! length h = Some arr.
Proof. by rewrite lookup_app_r, Nat.sub_diag. Qed.

Lemma alloc_Done h arr : alloc arr h = (Done (length h), h ++ [arr]).
Proof. done. Qed.

Lemma array_map_views {A B : Type}
    (f : value num → run num (value num))
    (view_in : _ → _ → option A) (view_out : _ → _ → option B) (g : A → B)
    a arr xs h :
  stable view_in → stable view_out →
  (∀ h v x, view_in h v = Some x →
     ∃ k w, f v h = (Done w, h ++ k) ∧ view_out (h ++ k) w = Some (g x)) →
  h !! a = Some arr →
  Forall2 (λ v x, view_in h v = Some x) arr xs →
  ∃ k ws, array_map f a h = (Done (length (h ++ k)), (h ++ k) ++ [ws])
    ∧ Forall2 (λ w y, view_out (h ++ k) w = Some y) ws (g <$> xs).
Proof.
  intros Hin Hout Hf Ha Hall.
  destruct (for_each_views f view_in view_out g arr xs h) as (k & ws & E & Hws);
    [done..|].
  exists k, ws. split; [|done]. unfold array_map.
  by rewrite (bind_Done _ _ _ _ _ (read_Done _ _ _ Ha)), (bind_Done _ _ _ _ _ E).
Qed.

(** Sorting the array that was allocated last. *)
Lemma array_sort_in_place_views {A : Type}
    (comparefn_run : value num → value num → run num num)
    (view : _ → _ → option A) (comparefn : A → A → num) arr xs h :
  stable view →
  (∀ h v1 v2 x1 x2, view h v1 = Some x1 → view h v2 = Some x2 →
     comparefn_run v1 v2 h = (Done (comparefn x1 x2), h)) →
  Forall2 (λ v x, view h v = Some x) arr xs →
  ∃ ws, array_sort_in_place comparefn_run (length h) (h ++ [arr])
          = (Done (length h), h ++ [ws])
    ∧ Forall2 (λ w y, view h w = Some y) ws (array_sort comparefn xs).
Proof.
  intros Hst Hcmp Hall.
  destruct (sort_run_views comparefn_run (λ v x, view h v = Some x)
              comparefn arr xs (h ++ [arr])) as (ws & E & Hws); [|done|].
  { intros v1 v2 x1 x2 H1 H2. apply Hcmp; by apply Hst. }
  exists ws. split; [|done]. unfold array_sort_in_place.
  rewrite (bind_Done _ _ _ _ _ (read_Done _ _ _ (lookup_snoc h arr))).
  rewrite (bind_Done _ _ _ _ _ E). cbn.
  unfold mbind, run_bind, write, mret, run_ret.
  by rewrite insert_app_r_alt, Nat.sub_diag by done.
Qed.

Lemma calculateBenefit_run_views h v it :
  item_at h v = Some it →
  ∃ k w, calculateBenefit_run v h = (Done w, h ++ k)
    ∧ annotated_at (h ++ k) w = Some (calculateBenefit it).
Proof.
  destruct v as [|l]; [done|]. cbn.
  destruct (h !! l) as [[|[weight|] [|[benefit|] [|]]]|] eqn:E; try done.
  intros [= <-]. eexists [_], _. unfold calculateBenefit_run. cbn [array].
  rewrite (bind_Done _ _ _ _ _ (read_Done _ _ _ E)). cbn.
  split; [reflexivity|]. cbn. by rewrite lookup_snoc.
Qed.

Lemma annotated_at_Some h v x :
  annotated_at h v = Some x →
  ∃ l, v = VRef l ∧ h !! l = Some [VNum x.1.1; VNum x.1.2; VNum x.2].
Proof.
  destruct v as [|l]; [done|]. cbn.
  destruct (h !! l) as [[|[r|] [|[w|] [|[b|] [|]]]]|] eqn:E; try done.
  intros [= <-]. eauto.
Qed.

Lemma sortByBenefit_run_views h v1 v2 x1 x2 :
  annotated_at h v1 = Some x1 → annotated_at h v2 = Some x2 →
  sortByBenefit_run v1 v2 h = (Done (sortByBenefit x1 x2), h).
Proof.
  intros (l1 & -> & E1)%annotated_at_Some (l2 & -> & E2)%annotated_at_Some.
  destruct x1 as [[r1 w1] b1], x2 as [[r2 w2] b2]. unfold sortByBenefit_run.
  cbn [array].
  rewrite (bind_Done _ _ _ _ _ (read_Done _ _ _ E1)).
  rewrite (bind_Done _ _ _ _ _ (read_Done _ _ _ E2)). cbn.
  unfold or_else, mbind, run_bind, mret, run_ret. by destruct (truthy _).
Qed.


Lemma push_Done h a arr v :
  h !! a = Some arr → push a v h = (Done (), <[a := arr ++ [v]]> h).
Proof.
  intros E. unfold push. by rewrite (bind_Done _ _ _ _ _ (read_Done _ _ _ E)).
Qed.

(** [permute] appends to the array at [result] one reference per mask, in
    the order of [masks]; the array referred to holds [left] followed by the
    elements of [right] that the mask takes; no other array that existed is
    touched. *)
Lemma permute_run_spec right h result left lv acc :
  h !! result = Some acc → h !! left = Some lv → result ≠ left →
  ∃ h' refs,
    permute_run result left right h = (Done (), h')
    ∧ length h ≤ length h'
    ∧ h' !! result = Some (acc ++ refs)
    ∧ (∀ l, l < length h → l ≠ result → h' !! l = h !! l)
    ∧ Forall2 (λ v m, ∃ l, v = VRef l ∧ l ≠ result
                        ∧ h' !! l = Some (lv ++ pick m right))
        refs (masks (length right)).
Proof.
  revert h left lv acc.
  induction right as [|x right IH]; intros h left lv acc Hresult Hleft Hne.
  { exists (<[result := acc ++ [VRef left]]> h), [VRef left].
    pose proof (lookup_lt_Some _ _ _ Hresult) as Hlt.
    split_and!.
    - by apply push_Done.
    - by rewrite length_insert.
    - by rewrite list_lookup_insert_eq.
    - intros l _ Hl. by rewrite list_lookup_insert_ne.
    - repeat constructor. exists left. split_and!; [done..|].
      by rewrite list_lookup_insert_ne, app_nil_r. }
  pose proof (lookup_lt_Some _ _ _ Hresult) as Hlt.
  pose proof (lookup_lt_Some _ _ _ Hleft) as Hlt'.
  set (h2 := (h ++ [lv ++ [x]]) ++ [right]).
  destruct (IH h2 (length h) (lv ++ [x]) acc)
    as (h3 & refs1 & E1 & Hlen1 & Hres1 & Hframe1 & Hrefs1).
  { unfold h2. by rewrite !lookup_app_l by (rewrite ?length_app; cbn; lia). }
  { unfold h2. rewrite lookup_app_l by (rewrite length_app; cbn; lia).
    apply lookup_snoc. }
  { lia. }
  assert (length h2 = S (S (length h))) as Hlen2
    by (unfold h2; rewrite !length_app; cbn; lia).
  destruct (IH (h3 ++ [right]) left lv (acc ++ refs1))
    as (h5 & refs2 & E2 & Hlen5 & Hres5 & Hframe5 & Hrefs2).
  { rewrite lookup_app_l; [done|]. by eapply lookup_lt_Some. }
  { rewrite lookup_app_l by lia. rewrite Hframe1 by lia.
    unfold h2. by rewrite !lookup_app_l by (rewrite ?length_app; cbn; lia). }
  { done. }
  rewrite length_app in Hlen5, Hframe5. cbn in Hlen5, Hframe5.
  exists h5, (refs1 ++ refs2). split_and!.
  - cbn [permute_run].
    rewrite (bind_Done _ _ _ _ _ (read_Done _ _ _ Hleft)).
    rewrite (bind_Done _ _ _ _ _ (alloc_Done _ _)).
    rewrite (bind_Done _ _ _ _ _ (alloc_Done _ _)).
    fold h2. rewrite (bind_Done _ _ _ _ _ E1).
    rewrite (bind_Done _ _ _ _ _ (alloc_Done _ _)). exact E2.
  - lia.
  - by rewrite Hres5, app_assoc.
  - intros l Hl Hl'. rewrite Hframe5 by lia. rewrite lookup_app_l by lia.
    rewrite Hframe1 by lia.
    unfold h2. by rewrite !lookup_app_l by (rewrite ?length_app; cbn; lia).
  - cbn [length masks]. apply Forall2_app.
    + apply Forall2_fmap_r. eapply Forall2_impl; [exact Hrefs1|].
      intros v m (l & -> & Hl & El). exists l. split_and!; [done..|].
      pose proof (lookup_lt_Some _ _ _ El).
      rewrite Hframe5 by lia. rewrite lookup_app_l by lia.
      rewrite El. cbn. by rewrite <-app_assoc.
    + apply Forall2_fmap_r. eapply Forall2_impl; [exact Hrefs2|].
      intros v m (l & -> & Hl & El). by exists l.
Qed.

Lemma Forall2_pick {A B : Type} (R : A → B → Prop) m xs ys :
  Forall2 R xs ys → Forall2 R (pick m xs) (pick m ys).
Proof.
  intros Hall. revert m.
  induction Hall as [|x y xs ys Hxy Hall IH]; intros [|[] m]; cbn;
    try constructor; auto.
Qed.

Lemma sortedCombinations_run_views h items arr xs :
  h !! items = Some arr →
  Forall2 (λ v x, annotated_at h v = Some x) arr xs →
  ∃ k refs,
    sortedCombinations_run items h = (Done (length h), h ++ k)
    ∧ (h ++ k) !! length h = Some refs
    ∧ Forall2 (λ v s, subset_at (h ++ k) v = Some s) refs (sortedCombinations xs).
Proof.
  intros Hitems Hall.
  set (h2 := (h ++ [[]]) ++ [[]]).
  destruct (permute_run_spec arr h2 (length h) (S (length h)) [] [])
    as (h' & refs & E & Hlen & Hres & Hframe & Hrefs).
  { unfold h2. rewrite lookup_app_l by (rewrite length_app; cbn; lia).
    apply lookup_snoc. }
  { unfold h2. replace (S (length h)) with (length (h ++ [[]]))
      by (rewrite length_app; cbn; lia). apply lookup_snoc. }
  { lia. }
  assert (length h2 = S (S (length h))) as Hlen2
    by (unfold h2; rewrite !length_app; cbn; lia).
  assert (h' = h ++ drop (length h) h') as Hh'.
  { rewrite <-(take_drop (length h) h') at 1. f_equal.
    apply list_eq. intros l. destruct (decide (l < length h)) as [Hl|Hl].
    - rewrite lookup_take_lt by done. rewrite Hframe by lia.
      unfold h2. by rewrite !lookup_app_l by (rewrite ?length_app; cbn; lia).
    - rewrite lookup_take_ge by lia. symmetry. apply lookup_ge_None. lia. }
  exists (drop (length h) h'), refs. rewrite <-Hh'. split_and!.
  - unfold sortedCombinations_run.
    rewrite (bind_Done _ _ _ _ _ (alloc_Done _ _)).
    rewrite (bind_Done _ _ _ _ _ (alloc_Done _ _)).
    rewrite length_app. cbn [length]. rewrite Nat.add_1_r.
    assert (((h ++ [[]]) ++ [[]]) !! items = Some arr) as Hitems'.
    { by rewrite !lookup_app_l by
        (rewrite ?length_app; cbn; pose proof (lookup_lt_Some _ _ _ Hitems); lia). }
    rewrite (bind_Done _ _ _ _ _ (read_Done _ _ _ Hitems')).
    fold h2. by rewrite (bind_Done _ _ _ _ _ E).
  - done.
  - rewrite sortedCombinations_masks. apply Forall2_fmap_r.
    rewrite <-(Forall2_length _ _ _ Hall).
    eapply Forall2_impl; [exact Hrefs|].
    intros v m (l & -> & _ & El). cbn. rewrite El. cbn.
    apply mapM_Some, Forall2_pick. rewrite Hh'.
    by apply Forall2_stable; [apply annotated_at_stable|].
Qed.


Lemma array_annotated h v x :
  annotated_at h v = Some x →
  array v h = (Done [VNum x.1.1; VNum x.1.2; VNum x.2], h).
Proof. intros (l & -> & E)%annotated_at_Some. by apply read_Done. Qed.

Lemma calculateTotalBenefit_run_views h v s :
  subset_at h v = Some s →
  ∃ k w, calculateTotalBenefit_run v h = (Done w, h ++ k)
    ∧ scored_at (h ++ k) w = Some (calculateTotalBenefit s).
Proof.
  destruct v as [|l]; [done|]. cbn.
  destruct (h !! l) as [arr|] eqn:E; [|done]. cbn.
  intros Hs. pose proof Hs as Hall. apply mapM_Some in Hall.
  eexists [_], _. unfold calculateTotalBenefit_run. cbn [array].
  rewrite (bind_Done _ _ _ _ _ (read_Done _ _ _ E)).
  erewrite bind_Done; last first.
  { apply (array_reduce_views _ (λ v x, annotated_at h v = Some x)
             (λ total current, (total + current.1.1)%num)); [|done].
    intros total v x Hv. by rewrite (bind_Done _ _ _ _ _ (array_annotated _ _ _ Hv)). }
  erewrite bind_Done; last first.
  { apply (array_reduce_views _ (λ v x, annotated_at h v = Some x)
             (λ total current, (total + current.1.2)%num)); [|done].
    intros total v x Hv. by rewrite (bind_Done _ _ _ _ _ (array_annotated _ _ _ Hv)). }
  rewrite (bind_Done _ _ _ _ _ (alloc_Done _ _)). split; [reflexivity|].
  cbn. rewrite lookup_snoc.
  by rewrite (mapM_stable _ _ _ _ _ annotated_at_stable Hs).
Qed.

Lemma scored_at_Some h v sc :
  scored_at h v = Some sc →
  ∃ l arr, v = VRef l ∧ h !! l = Some (VNum sc.1.1 :: VNum sc.1.2 :: arr)
    ∧ mapM (annotated_at h) arr = Some sc.2.
Proof.
  destruct v as [|l]; [done|]. cbn.
  destruct (h !! l) as [[|[r|] [|[w|] arr]]|] eqn:E; try done.
  destruct (mapM (annotated_at h) arr) as [members|] eqn:Em; [|done].
  intros [= <-]. eauto.
Qed.

Lemma filterByWeight_run_views h threshold v sc :
  scored_at h v = Some sc →
  filterByWeight_run threshold v h = (Done (filterByWeight threshold sc), h).
Proof.
  intros (l & arr & -> & E & _)%scored_at_Some. unfold filterByWeight_run.
  cbn [array]. by rewrite (bind_Done _ _ _ _ _ (read_Done _ _ _ E)).
Qed.

Lemma sortByTotalBenefit_run_views h v1 v2 sc1 sc2 :
  scored_at h v1 = Some sc1 → scored_at h v2 = Some sc2 →
  sortByTotalBenefit_run v1 v2 h = (Done (sortByTotalBenefit sc1 sc2), h).
Proof.
  intros (l1 & arr1 & -> & E1 & _)%scored_at_Some
         (l2 & arr2 & -> & E2 & _)%scored_at_Some.
  unfold sortByTotalBenefit_run. cbn [array].
  rewrite (bind_Done _ _ _ _ _ (read_Done _ _ _ E1)).
  by rewrite (bind_Done _ _ _ _ _ (read_Done _ _ _ E2)).
Qed.

Lemma slice_run_Done h l arr start :
  h !! l = Some arr →
  slice_run start (VRef l) h = (Done (VRef (length h)), h ++ [drop start arr]).
Proof.
  intros E. unfold slice_run. cbn [array].
  by rewrite (bind_Done _ _ _ _ _ (read_Done _ _ _ E)).
Qed.

Lemma slice_run_views h v x :
  annotated_at h v = Some x →
  ∃ k w, slice_run 1 v h = (Done w, h ++ k) ∧ item_at (h ++ k) w = Some (unwrap x).
Proof.
  intros Hv. eexists [_], _. unfold slice_run.
  rewrite (bind_Done _ _ _ _ _ (array_annotated _ _ _ Hv)).
  rewrite (bind_Done _ _ _ _ _ (alloc_Done _ _)). split; [reflexivity|].
  cbn. by rewrite lookup_snoc.
Qed.

Lemma array_filter_views {A : Type} (f : value num → run num bool)
    (view : _ → _ → option A) (p : A → bool) a arr xs h :
  (∀ v x, view h v = Some x → f v h = (Done (p x), h)) →
  h !! a = Some arr →
  Forall2 (λ v x, view h v = Some x) arr xs →
  ∃ ws, array_filter f a h = (Done (length h), h ++ [ws])
    ∧ Forall2 (λ w y, view h w = Some y) ws (filter (λ x, p x) xs).
Proof.
  intros Hf Ha Hall.
  destruct (keep_views f (λ v x, view h v = Some x) p arr xs h)
    as (ws & E & Hws); [done..|].
  exists ws. split; [|done]. unfold array_filter.
  by rewrite (bind_Done _ _ _ _ _ (read_Done _ _ _ Ha)), (bind_Done _ _ _ _ _ E).
Qed.

Lemma items_at_Some h l its :
  items_at h l = Some its ↔
  ∃ arr, h !! l = Some arr ∧ Forall2 (λ v it, item_at h v = Some it) arr its.
Proof.
  unfold items_at. destruct (h !! l) as [arr|]; cbn.
  - rewrite mapM_Some. split; [by exists arr|]. by intros (? & [= <-] & ?).
  - split; [done|]. by intros (? & [=] & _).
Qed.

(** X14. On a store that holds a collection of pairs, the run with
    in-place [sort], [push] and shared arrays shows the caller exactly what
    [knapsack] computes on the list of pairs: the same returned pairs in the
    same order, or the same exception; it never leaves the modelled shapes. *)
Theorem knapsack_run_refines h items its maximumWeight :
  items_at h items = Some its →
  observe (knapsack_run items maximumWeight h) = Some (knapsack its maximumWeight).
Proof.
  intros (arr & Hitems & Hall)%items_at_Some.
  (* items.map(calculateBenefit) *)
  destruct (array_map_views calculateBenefit_run item_at annotated_at
              calculateBenefit items arr its h) as (k1 & ws1 & E1 & H1);
    [apply item_at_stable|apply annotated_at_stable
    |apply calculateBenefit_run_views|done..|].
  (* .sort(sortByBenefit) *)
  destruct (array_sort_in_place_views sortByBenefit_run annotated_at
              sortByBenefit ws1 (calculateBenefit <$> its) (h ++ k1))
    as (ws2 & E2 & H2);
    [apply annotated_at_stable|apply sortByBenefit_run_views|done|].
  fold (ranked its) in H2.
  (* sortedCombinations *)
  set (h2 := (h ++ k1) ++ [ws2]) in *.
  destruct (sortedCombinations_run_views h2 (length (h ++ k1)) ws2 (ranked its))
    as (k3 & ws3 & E3 & Hws3 & H3).
  { apply lookup_snoc. }
  { by apply Forall2_stable; [apply annotated_at_stable|]. }
  (* .map(calculateTotalBenefit) *)
  destruct (array_map_views calculateTotalBenefit_run subset_at scored_at
              calculateTotalBenefit (length h2) ws3
              (sortedCombinations (ranked its)) (h2 ++ k3))
    as (k4 & ws4 & E4 & H4);
    [apply subset_at_stable|apply scored_at_stable
    |apply calculateTotalBenefit_run_views|done..|].
  (* .filter(filterByWeight(maximumWeight)) *)
  set (h4 := ((h2 ++ k3) ++ k4) ++ [ws4]) in *.
  destruct (array_filter_views (filterByWeight_run maximumWeight) scored_at
              (filterByWeight maximumWeight) (length ((h2 ++ k3) ++ k4)) ws4
              (calculateTotalBenefit <$> sortedCombinations (ranked its)) h4)
    as (ws5 & E5 & H5).
  { intros v x. apply filterByWeight_run_views. }
  { apply lookup_snoc. }
  { by apply Forall2_stable; [apply scored_at_stable|]. }
  fold (feasible its maximumWeight) in H5.
  (* .sort(sortByTotalBenefit) *)
  destruct (array_sort_in_place_views sortByTotalBenefit_run scored_at
              sortByTotalBenefit ws5 (feasible its maximumWeight) h4)
    as (ws6 & E6 & H6);
    [apply scored_at_stable|apply sortByTotalBenefit_run_views|done|].
  unfold knapsack_run.
  rewrite (bind_Done _ _ _ _ _ E1), (bind_Done _ _ _ _ _ E2).
  fold h2. rewrite (bind_Done _ _ _ _ _ E3), (bind_Done _ _ _ _ _ E4).
  fold h4. rewrite (bind_Done _ _ _ _ _ E5), (bind_Done _ _ _ _ _ E6).
  rewrite (bind_Done _ _ _ _ _ (read_Done _ _ _ (lookup_snoc _ _))).
  unfold knapsack. fold (ranked its). fold (feasible its maximumWeight).
  destruct H6 as [|first sc ws6 scs Hfirst _]; [done|]. cbn [lookup list_lookup].
  (* results[0].slice(2).map(item => item.slice(1)) *)
  set (h6 := h4 ++ [first :: ws6]) in *.
  apply (scored_at_stable _ [first :: ws6]) in Hfirst. fold h6 in Hfirst.
  apply scored_at_Some in Hfirst as (l & members & -> & El & Hmembers).
  rewrite (bind_Done _ _ _ _ _ (slice_run_Done _ _ _ 2 El)). cbn [array drop].
  rewrite (bind_Done _ _ _ _ _ (read_Done _ _ _ (lookup_snoc _ _))).
  apply mapM_Some in Hmembers.
  destruct (for_each_views (slice_run 1) annotated_at item_at unwrap
              members sc.2 (h6 ++ [members])) as (k7 & ws7 & E7 & H7);
    [apply annotated_at_stable|apply item_at_stable|apply slice_run_views| |].
  { by apply Forall2_stable; [apply annotated_at_stable|]. }
  rewrite (bind_Done _ _ _ _ _ E7), alloc_Done. cbn [observe].
  replace (items_at _ _) with (Some (unwrap <$> sc.2)); [done|].
  symmetry. apply items_at_Some. exists ws7. split; [apply lookup_snoc|].
  by apply Forall2_stable; [apply item_at_stable|].
Qed.

End Refine.

(** ** What a run leaves alone *)
Section Frame.
Context {num : Type} `{Number num}.
Implicit Types (n : nat) (l a : loc) (arr : list (value num)) (v : value num).

Lemma preserves_ret {A : Type} n (x : A) (Q : A → Prop) :
  Q x → preserves (num := num) n (mret x) Q.
Proof. intros HQ h Hn. cbn. split_and!; [done..|]. by intros ? [= <-]. Qed.

Lemma preserves_bind {A B : Type} n (m : run num A) (k : A → run num B)
    (Q : A → Prop) (Q' : B → Prop) :
  preserves n m Q → (∀ x, Q x → preserves n (k x) Q') →
  preserves n (m ≫= k) Q'.
Proof.
  intros Hm Hk h Hn. destruct (Hm h Hn) as (Hlen & Htake & HQ).
  unfold mbind, run_bind. destruct (m h) as [[x|e|] h'] eqn:E; cbn in *.
  - destruct (Hk x (HQ x eq_refl) h' Hlen) as (Hlen' & Htake' & HQ').
    split_and!; [done|congruence|done].
  - by split_and!.
  - by split_and!.
Qed.

Lemma preserves_weaken {A : Type} n (m : run num A) (Q Q' : A → Prop) :
  preserves n m Q → (∀ x, Q x → Q' x) → preserves n m Q'.
Proof.
  intros Hm HQ h Hn. destruct (Hm h Hn) as (? & ? & ?). split_and!; auto.
Qed.

Lemma preserves_raise {A : Type} n e (Q : A → Prop) :
  preserves (num := num) n (raise e) Q.
Proof. intros h Hn. cbn. by split_and!. Qed.

Lemma preserves_out_of_model {A : Type} n (Q : A → Prop) :
  preserves (num := num) n out_of_model Q.
Proof. intros h Hn. cbn. by split_and!. Qed.

(** A new array lies beyond every array there was. *)
Lemma preserves_alloc n arr : preserves n (alloc arr) (λ l, n ≤ l).
Proof.
  intros h Hn. cbn. rewrite length_app, take_app_le by done.
  split_and!; [lia|done|]. intros ? [= <-]. done.
Qed.

Lemma preserves_read n l : preserves (num := num) n (read l) (λ _, True).
Proof. intros h Hn. unfold read. case_match; cbn; by split_and!. Qed.

(** Overwriting is harmless beyond the first [n] arrays. *)
Lemma preserves_write n l arr : n ≤ l → preserves n (write l arr) (λ _, True).
Proof.
  intros Hl h Hn. cbn. rewrite length_insert. split_and!; [done| |done].
  by rewrite take_insert_ge.
Qed.

Local Ltac preserve :=
  repeat first
    [ apply preserves_out_of_model
    | apply preserves_raise
    | apply preserves_ret; try done
    | eapply preserves_bind; [|intros ? ?]
    | eapply preserves_weaken; [apply preserves_alloc|done]
    | apply preserves_alloc
    | apply preserves_read
    | apply preserves_write; done ].

Lemma preserves_number n (o : option (value num)) :
  preserves n (number o) (λ _, True).
Proof. destruct o as [[]|]; cbn; preserve. Qed.

Lemma preserves_array n v : preserves n (array v) (λ _, True).
Proof. destruct v; cbn; preserve. Qed.

Local Ltac preserve' :=
  repeat first
    [ apply preserves_number | apply preserves_array | progress preserve ].

Lemma preserves_for_each {A B : Type} n (f : A → run num B) (xs : list A)
    (Q : B → Prop) :
  (∀ x, preserves n (f x) Q) → preserves n (for_each f xs) (λ _, True).
Proof. intros Hf. induction xs as [|x xs IH]; cbn; preserve'; [apply Hf|done]. Qed.

Lemma preserves_keep n (f : value num → run num bool) arr :
  (∀ x, preserves n (f x) (λ _, True)) → preserves n (keep f arr) (λ _, True).
Proof. intros Hf. induction arr as [|x arr IH]; cbn; preserve'; [apply Hf|done]. Qed.

Lemma preserves_array_reduce {A : Type} n (f : A → value num → run num A)
    arr init :
  (∀ x y, preserves n (f x y) (λ _, True)) →
  preserves n (array_reduce f arr init) (λ _, True).
Proof.
  intros Hf. revert init.
  induction arr as [|x arr IH]; intros init; cbn; preserve'; [apply Hf|done].
Qed.

Lemma preserves_array_map n (f : value num → run num (value num)) a
    (Q : value num → Prop) :
  (∀ x, preserves n (f x) Q) → preserves n (array_map f a) (λ l, n ≤ l).
Proof.
  intros Hf. unfold array_map. preserve'. by eapply preserves_for_each.
Qed.

Lemma preserves_array_filter n (f : value num → run num bool) a :
  (∀ x, preserves n (f x) (λ _, True)) →
  preserves n (array_filter f a) (λ l, n ≤ l).
Proof.
  intros Hf. unfold array_filter. preserve'. by eapply preserves_keep.
Qed.

Lemma preserves_sort_insert_run n
    (comparefn : value num → value num → run num num) v arr :
  (∀ x y, preserves n (comparefn x y) (λ _, True)) →
  preserves n (sort_insert_run comparefn v arr) (λ _, True).
Proof.
  intros Hf. induction arr as [|y arr IH]; cbn; preserve'; [apply Hf|].
  case_match; preserve'. done.
Qed.

Lemma preserves_sort_run n
    (comparefn : value num → value num → run num num) arr :
  (∀ x y, preserves n (comparefn x y) (λ _, True)) →
  preserves n (sort_run comparefn arr) (λ _, True).
Proof.
  intros Hf. induction arr as [|y arr IH]; cbn; preserve'; [done|].
  by apply preserves_sort_insert_run.
Qed.

(** The in-place sort is harmless on an array beyond the first [n]. *)
Lemma preserves_array_sort_in_place n
    (comparefn : value num → value num → run num num) a :
  n ≤ a →
  (∀ x y, preserves n (comparefn x y) (λ _, True)) →
  preserves n (array_sort_in_place comparefn a) (λ l, n ≤ l).
Proof.
  intros Ha Hf. unfold array_sort_in_place. preserve'.
  by apply preserves_sort_run.
Qed.

Lemma preserves_push n a v : n ≤ a → preserves n (push a v) (λ _, True).
Proof. intros Ha. unfold push. preserve'. Qed.

Lemma preserves_permute_run n result left arr :
  n ≤ result → preserves n (permute_run result left arr) (λ _, True).
Proof.
  intros Hresult. revert left.
  induction arr as [|x arr IH]; intros left; cbn; [by apply preserves_push|].
  preserve'; apply IH.
Qed.

Lemma preserves_sortedCombinations_run n a :
  preserves (num := num) n (sortedCombinations_run a) (λ l, n ≤ l).
Proof.
  unfold sortedCombinations_run.
  eapply preserves_bind; [apply preserves_alloc|]. intros result Hresult.
  preserve'. by apply preserves_permute_run.
Qed.

Lemma preserves_calculateBenefit_run n v :
  preserves n (calculateBenefit_run v) (λ _, True).
Proof. unfold calculateBenefit_run. preserve'. Qed.

Lemma preserves_sortByBenefit_run n x y :
  preserves n (sortByBenefit_run x y) (λ _, True).
Proof. unfold sortByBenefit_run. preserve'. case_match; preserve'. Qed.

Lemma preserves_calculateTotalBenefit_run n v :
  preserves n (calculateTotalBenefit_run v) (λ _, True).
Proof.
  unfold calculateTotalBenefit_run. preserve';
    (apply preserves_array_reduce; intros; preserve').
Qed.

Lemma preserves_filterByWeight_run n threshold v :
  preserves n (filterByWeight_run threshold v) (λ _, True).
Proof. unfold filterByWeight_run. preserve'. Qed.

Lemma preserves_sortByTotalBenefit_run n x y :
  preserves n (sortByTotalBenefit_run x y) (λ _, True).
Proof. unfold sortByTotalBenefit_run. preserve'. Qed.

Lemma preserves_slice_run n start v :
  preserves n (slice_run start v) (λ _, True).
Proof. unfold slice_run. preserve'. Qed.

Lemma preserves_knapsack_run n items maximumWeight :
  preserves n (knapsack_run items maximumWeight) (λ _, True).
Proof.
  unfold knapsack_run.
  eapply preserves_bind.
  { eapply preserves_array_map, preserves_calculateBenefit_run. }
  intros annotated Hannotated. eapply preserves_bind.
  { apply preserves_array_sort_in_place; [done|].
    apply preserves_sortByBenefit_run. }
  intros ranked _. eapply preserves_bind.
  { apply preserves_sortedCombinations_run. }
  intros combinations _. eapply preserves_bind.
  { eapply preserves_array_map, preserves_calculateTotalBenefit_run. }
  intros scored _. eapply preserves_bind.
  { apply preserves_array_filter, preserves_filterByWeight_run. }
  intros filtered Hfiltered. eapply preserves_bind.
  { apply preserves_array_sort_in_place; [done|].
    apply preserves_sortByTotalBenefit_run. }
  intros results _. eapply preserves_bind; [apply preserves_read|].
  intros arr _. case_match; [|apply preserves_raise].
  eapply preserves_bind; [apply preserves_slice_run|]. intros members _.
  eapply preserves_bind; [apply preserves_array|]. intros m _.
  eapply preserves_bind.
  { apply preserves_for_each with (Q := λ _, True). intros x.
    apply preserves_slice_run. }
  intros res _. eapply preserves_weaken; [apply preserves_alloc|done].
Qed.

Lemma item_at_prefix (h h' : store num) v it :
  h `prefix_of` h' → item_at h v = Some it → item_at h' v = Some it.
Proof.
  intros Hpre. destruct v as [|l]; [done|]. cbn.
  destruct (h !! l) as [arr|] eqn:E; [|done].
  by rewrite (prefix_lookup_Some _ _ _ _ E Hpre).
Qed.

Lemma items_at_prefix (h h' : store num) l its :
  h `prefix_of` h' → items_at h l = Some its → items_at h' l = Some its.
Proof.
  intros Hpre. unfold items_at.
  destruct (h !! l) as [arr|] eqn:E; [|done].
  rewrite (prefix_lookup_Some _ _ _ _ E Hpre). cbn.
  rewrite !mapM_Some. intros Hall. eapply Forall2_impl; [exact Hall|].
  intros v it. by apply item_at_prefix.
Qed.

(** C10. Whatever the store, the reference and the capacity, and whether
    [knapsack] returns or throws, every array that existed before the call
    has the contents it had: the store after the call is the store before
    it followed by the arrays allocated during the call.  In particular
    the caller's collection, read off the store, is the same list of the
    same pairs. *)
Theorem knapsack_run_frame (h : store num) items maximumWeight :
  let h' := (knapsack_run items maximumWeight h).2 in
  h `prefix_of` h'
  ∧ (∀ l arr, h !! l = Some arr → h' !! l = Some arr)
  ∧ (∀ its, items_at h items = Some its → items_at h' items = Some its).
Proof.
  intros h'.
  destruct (preserves_knapsack_run (length h) items maximumWeight h)
    as (_ & Htake & _); [done|]. fold h' in Htake.
  rewrite (take_ge h) in Htake by done.
  assert (h `prefix_of` h') as Hpre.
  { exists (drop (length h) h'). by rewrite <-Htake at 1; rewrite take_drop. }
  split_and!; [done| |].
  - intros l arr E. by eapply prefix_lookup_Some.
  - intros its. by apply items_at_prefix.
Qed.
End Frame.

(** ** The theorems at work on the README collection *)

Lemma sortedCombinations_power_set_witness :
  NoDup [1; 2; 3] ∧ NoDup (sortedCombinations [1; 2; 3])
  ∧ length (sortedCombinations [1; 2; 3]) = 8.
Proof.
  destruct (sortedCombinations_power_set [1; 2; 3]) as (Hlen & _ & _ & _ & _ & Hnodup).
  assert (NoDup [1; 2; 3]) as Hl.
  { repeat constructor; rewrite ?elem_of_cons, ?elem_of_nil; lia. }
  split; [exact Hl|]. split; [exact (Hnodup Hl)|exact Hlen].
Defined.





Lemma knapsack_no_validation_witness :
  knapsack collection_exact (Some (int (-1))) = Throw TypeError
  ∧ feasible collection_exact (Some (int (-1))) = [].
Proof.
  split; [reflexivity|].
  destruct (knapsack_no_validation collection_exact (Some (int (-1))))
    as (_ & _ & _ & Hthrow).
  exact (proj2 (Hthrow TypeError eq_refl)).
Defined.

Lemma unwrap_annotate_identity_witness :
  knapsack collection_double (Some 12%float)
    = Return [(3, 5); (4, 5); (1, 1); (3, 2)]%float
  ∧ [(3, 5); (4, 5); (1, 1); (3, 2)]%float ⊆+ collection_double.
Proof.
  split; [reflexivity|].
  exact (proj2 (proj2 unwrap_annotate_identity collection_double
                  (Some 12%float) _ eq_refl)).
Defined.

Lemma knapsack_run_frame_witness :
  items_at readme_store 6 = Some collection_double
  ∧ items_at (knapsack_run 6 (Some 12%float) readme_store).2 6
    = Some collection_double.
Proof.
  split; [reflexivity|].
  destruct (knapsack_run_frame readme_store 6 (Some 12%float)) as (_ & _ & Hitems).
  exact (Hitems collection_double eq_refl).
Defined.

(** * Further properties *)

(** ** The enumerator *)
Section EnumeratorMore.
Context {A : Type}.
Implicit Types (x : A) (l left right s : list A) (result : list (list A)).

Lemma sortedCombinations_cons x l :
  sortedCombinations (x :: l)
  = (cons x <$> sortedCombinations l) ++ sortedCombinations l.
Proof.
  rewrite !sortedCombinations_masks. cbn [length masks].
  rewrite fmap_app, <-!list_fmap_compose. done.
Qed.

Lemma head_sortedCombinations l : head (sortedCombinations l) = Some l.
Proof.
  induction l as [|x l IH]; [done|]. rewrite sortedCombinations_cons.
  destruct (sortedCombinations l); by simplify_eq/=.
Qed.

Lemma last_sortedCombinations l : last (sortedCombinations l) = Some [].
Proof.
  induction l as [|x l IH]; [done|].
  by rewrite sortedCombinations_cons, last_app, IH.
Qed.

(** X1. [permute] only appends: what was in [result] stays where it was,
    and what is added is [left] followed by each combination of [right], in
    the order in which [sortedCombinations] lists them. *)
Theorem permute_appends left right result :
  permute left right result
  = result ++ ((λ s, left ++ s) <$> sortedCombinations right).
Proof.
  rewrite permute_masks, sortedCombinations_masks.
  by rewrite <-list_fmap_compose.
Qed.

(** X2. The combinations of [x :: l] are the combinations of [l] with [x]
    in front, followed by the combinations of [l]; so the first combination
    is the whole sequence and the last is the empty one. *)
Theorem sortedCombinations_recurrence x l :
  sortedCombinations (x :: l)
  = (cons x <$> sortedCombinations l) ++ sortedCombinations l
  ∧ head (sortedCombinations l) = Some l
  ∧ last (sortedCombinations l) = Some [].
Proof.
  split_and!;
    [apply sortedCombinations_cons|apply head_sortedCombinations
    |apply last_sortedCombinations].
Qed.
End EnumeratorMore.

(** ** The sort *)
Section ArraySortMore.
Context {num : Type} `{Number num} {A : Type}.
Variable comparefn : A → A → num.
Implicit Types (x y : A) (l : list A).


End ArraySortMore.

(** ** The pipeline, for every number type *)
Section PipelineMore.
Context {num : Type} `{Number num}.
Implicit Types (it : item num) (items out : list (item num)).
Implicit Types (s : list (annotated num)) (maximumWeight : option num).

Lemma feasible_nil_iff items maximumWeight :
  feasible items maximumWeight = [] ↔
  ∀ s, s `sublist_of` ranked items →
       filterByWeight maximumWeight (calculateTotalBenefit s) = false.
Proof.
  split.
  - intros Hnil s Hs. apply not_true_is_false. intros Hw.
    assert (calculateTotalBenefit s ∈ feasible items maximumWeight) as Hin
      by (apply elem_of_feasible; by exists s).
    rewrite Hnil in Hin. by apply elem_of_nil in Hin.
  - intros Hall. apply elem_of_nil_inv.
    intros sc (s & -> & Hs & Hw)%elem_of_feasible. by rewrite Hall in Hw.
Qed.

(** X3. In every number type and for every input, what [knapsack] returns
    passes the capacity filter: the total weight that the scorer computes
    for the returned items is [<=] the capacity ([Infinity] when none is
    given). *)
Theorem knapsack_Return_feasible items maximumWeight out :
  knapsack items maximumWeight = Return out →
  filterByWeight maximumWeight
    (calculateTotalBenefit (calculateBenefit <$> out)) = true.
Proof.
  intros (s & _ & Hs & Hw & ->)%knapsack_Return.
  by rewrite (annotate_unwrap items s Hs).
Qed.

(** X4. [knapsack] throws exactly when no subsequence of the ranked items
    passes the capacity filter, and then the exception is [TypeError];
    otherwise it returns. *)
Theorem knapsack_Throw_iff items maximumWeight :
  (knapsack items maximumWeight = Throw TypeError ↔
   ∀ s, s `sublist_of` ranked items →
        filterByWeight maximumWeight (calculateTotalBenefit s) = false)
  ∧ ((∃ out, knapsack items maximumWeight = Return out) ↔
     ∃ s, s `sublist_of` ranked items
          ∧ filterByWeight maximumWeight (calculateTotalBenefit s) = true).
Proof.
  split.
  - rewrite <-feasible_nil_iff. split; [by intros [_ ?]%knapsack_Throw|].
    intros Hnil. by rewrite knapsack_first_sorted, Hnil.
  - split.
    + intros [out (s & _ & Hs & Hw & _)%knapsack_Return]. by exists s.
    + intros (s & Hs & Hw).
      destruct (knapsack items maximumWeight) as [out|e] eqn:E; [by exists out|].
      apply knapsack_Throw in E as [_ Hnil].
      rewrite (proj1 (feasible_nil_iff _ _) Hnil s Hs) in Hw. done.
Qed.

(** X5. On the empty collection [knapsack] returns the empty array when
    [0 <= capacity] holds (no capacity counts as [Infinity]) and throws
    [TypeError] when it does not: for a negative capacity and for NaN. *)
Theorem knapsack_empty maximumWeight :
  knapsack (@nil (item num)) maximumWeight
  = if (nzero <=? default ninfinity maximumWeight)%num
    then Return [] else Throw TypeError.
Proof.
  rewrite knapsack_first_sorted. unfold feasible.
  change (calculateTotalBenefit <$> sortedCombinations (ranked []))
    with [calculateTotalBenefit (@nil (annotated num))].
  rewrite filter_cons, filter_nil.
  change (filterByWeight maximumWeight (calculateTotalBenefit []))
    with (nzero <=? default ninfinity maximumWeight)%num.
  case_decide as E.
  - apply Is_true_true in E. by rewrite E.
  - apply Is_true_false in E. by rewrite E.
Qed.
End PipelineMore.

(** ** The pipeline on exact numbers *)
Section ExactMore.
Implicit Types (it : item xnum) (items its out : list (item xnum)).
Implicit Types (a : annotated xnum) (s : list (annotated xnum)).
Implicit Types (sc : scored xnum) (maximumWeight : option xnum).
Implicit Types (x y z : xnum).




#[export] Instance totalWeight_proper : Proper ((≡ₚ) ==> (≡)) totalWeight.
Proof. intros its1 its2 E. unfold totalWeight. by rewrite E. Qed.

#[export] Instance totalRatio_proper : Proper ((≡ₚ) ==> (≡)) totalRatio.
Proof. intros its1 its2 E. unfold totalRatio. by rewrite E. Qed.




(** *** Valid collections *)









(** *** Everything fits, nothing fits *)





(** *** Running [knapsack] on its own result *)




(** *** The comparators *)

End ExactMore.

(** ** The run on the store: what is returned is new *)

Section Fresh.
Context {num : Type} `{Number num}.
Implicit Types (h : store num) (l a : loc) (arr : list (value num)).
Implicit Types (v : value num).

Lemma grows_ret {A : Type} (x : A) : grows (num := num) (mret x).
Proof. by intros h. Qed.

Lemma grows_bind {A B : Type} (m : run num A) (f : A → run num B) :
  grows m → (∀ x, grows (f x)) → grows (m ≫= f).
Proof.
  intros Hm Hf h. specialize (Hm h). unfold mbind, run_bind.
  destruct (m h) as [[x|e|] h1]; [|done..]. cbn in Hm.
  etrans; [done|]. apply Hf.
Qed.

Lemma grows_raise {A : Type} e : grows (num := num) (A := A) (raise e).
Proof. by intros h. Qed.

Lemma grows_out_of_model {A : Type} : grows (num := num) (A := A) out_of_model.
Proof. by intros h. Qed.

Lemma grows_alloc arr : grows (alloc arr).
Proof. intros h. cbn. rewrite length_app. lia. Qed.

Lemma grows_read l : grows (num := num) (read l).
Proof. intros h. unfold read. by case_match. Qed.

Lemma grows_write l arr : grows (write l arr).
Proof. intros h. cbn. by rewrite length_insert. Qed.

Local Ltac grow :=
  repeat first
    [ apply grows_ret | apply grows_raise | apply grows_out_of_model
    | apply grows_alloc | apply grows_read | apply grows_write
    | apply grows_bind; [|intros ?]
    | assumption
    | progress case_match ].

Lemma grows_number (o : option (value num)) : grows (number o).
Proof. destruct o as [[]|]; cbn; grow. Qed.

Lemma grows_array v : grows (array v).
Proof. destruct v; cbn; grow. Qed.

Local Ltac grow' :=
  repeat first [ apply grows_number | apply grows_array | progress grow ].

Lemma grows_for_each {A B : Type} (f : A → run num B) (xs : list A) :
  (∀ x, grows (f x)) → grows (for_each f xs).
Proof. intros Hf. induction xs as [|x xs IH]; cbn; grow'. apply Hf. Qed.

Lemma grows_keep (f : value num → run num bool) arr :
  (∀ x, grows (f x)) → grows (keep f arr).
Proof. intros Hf. induction arr as [|x arr IH]; cbn; grow'. apply Hf. Qed.

Lemma grows_array_reduce {A : Type} (f : A → value num → run num A) arr init :
  (∀ x y, grows (f x y)) → grows (array_reduce f arr init).
Proof.
  intros Hf. revert init. induction arr as [|x arr IH]; intros init; cbn; grow'.
  - apply Hf.
  - apply IH.
Qed.

Lemma grows_sort_insert_run
    (comparefn : value num → value num → run num num) v arr :
  (∀ x y, grows (comparefn x y)) → grows (sort_insert_run comparefn v arr).
Proof. intros Hf. induction arr as [|y arr IH]; cbn; grow'. apply Hf. Qed.

Lemma grows_sort_run (comparefn : value num → value num → run num num) arr :
  (∀ x y, grows (comparefn x y)) → grows (sort_run comparefn arr).
Proof.
  intros Hf. induction arr as [|y arr IH]; cbn; grow'.
  by apply grows_sort_insert_run.
Qed.

Lemma grows_permute_run result left arr :
  grows (num := num) (permute_run result left arr).
Proof.
  revert left. induction arr as [|x arr IH]; intros left; cbn.
  - unfold push. grow'.
  - grow'; apply IH.
Qed.

Lemma grows_slice_run start v : grows (slice_run start v).
Proof. unfold slice_run. grow'. Qed.

(** The stages of [knapsack_run] before the selection. *)
Lemma grows_stages :
  (∀ a, grows (array_map calculateBenefit_run a))
  ∧ (∀ a, grows (array_sort_in_place sortByBenefit_run a))
  ∧ (∀ a, grows (num := num) (sortedCombinations_run a))
  ∧ (∀ a, grows (array_map calculateTotalBenefit_run a))
  ∧ (∀ maximumWeight a,
       grows (array_filter (filterByWeight_run maximumWeight) a))
  ∧ (∀ a, grows (array_sort_in_place sortByTotalBenefit_run a)).
Proof.
  split_and!; intros;
    unfold array_map, array_sort_in_place, sortedCombinations_run, array_filter.
  - grow'. apply grows_for_each. intros ?. unfold calculateBenefit_run. grow'.
  - grow'. apply grows_sort_run. intros ? ?. unfold sortByBenefit_run. grow'.
  - grow'. apply grows_permute_run.
  - grow'. apply grows_for_each. intros ?. unfold calculateTotalBenefit_run.
    grow'; (apply grows_array_reduce; intros; grow').
  - grow'. apply grows_keep. intros ?. unfold filterByWeight_run. grow'.
  - grow'. apply grows_sort_run. intros ? ?.
    unfold sortByTotalBenefit_run. grow'.
Qed.

Lemma bind_Done_inv {A B : Type} (m : run num A) (f : A → run num B) h y h' :
  grows m → (m ≫= f) h = (Done y, h') →
  ∃ x h1, length h ≤ length h1 ∧ m h = (Done x, h1) ∧ f x h1 = (Done y, h').
Proof.
  intros Hm. specialize (Hm h). unfold mbind, run_bind.
  destruct (m h) as [[x|e|] h1]; [|done..]. intros E. by exists x, h1.
Qed.

(** What [slice] returns is a new array. *)
Lemma for_each_slice_run start arr h ws h' :
  for_each (slice_run start) arr h = (Done ws, h') →
  length h ≤ length h'
  ∧ Forall (λ w, ∃ r, w = VRef r ∧ length h ≤ r < length h') ws.
Proof.
  revert h ws. induction arr as [|v arr IH]; intros h ws; cbn [for_each].
  { intros [= <- <-]. by split. }
  intros (w & h1 & _ & Ev & (ws' & h2 & _ & Eall & [= <- <-])%bind_Done_inv
         )%bind_Done_inv; [| |apply grows_slice_run].
  2: { apply grows_for_each. intros ?. apply grows_slice_run. }
  apply IH in Eall as [Hlen Hall]. unfold slice_run in Ev.
  apply bind_Done_inv in Ev as (arr' & h0 & _ & Earr & Ev); [|apply grows_array].
  assert (h0 = h) as ->.
  { destruct v as [|l]; [done|]. cbn in Earr. unfold read in Earr.
    by case_match; simplify_eq. }
  injection Ev as <- <-. rewrite length_app in Hlen, Hall. cbn in Hlen, Hall.
  split; [lia|]. constructor.
  - exists (length h). split; [done|lia].
  - eapply Forall_impl; [done|]. intros ? (r & -> & ?). exists r. split; [done|lia].
Qed.

(** X15. The array that [knapsack] returns and the item arrays in it are
    allocated during the call: none of them is an array of the caller, so
    changing the result changes nothing that existed before. *)
Theorem knapsack_run_fresh h items maximumWeight l h' :
  knapsack_run items maximumWeight h = (Done l, h') →
  length h ≤ l
  ∧ ∃ arr, h' !! l = Some arr
      ∧ Forall (λ v, ∃ r, v = VRef r ∧ length h ≤ r < l) arr.
Proof.
  destruct grows_stages as (G1 & G2 & G3 & G4 & G5 & G6).
  unfold knapsack_run.
  intros (a1 & h1 & L1 & _ & Hk)%bind_Done_inv; [|apply G1].
  apply bind_Done_inv in Hk as (a2 & h2 & L2 & _ & Hk); [|apply G2].
  apply bind_Done_inv in Hk as (a3 & h3 & L3 & _ & Hk); [|apply G3].
  apply bind_Done_inv in Hk as (a4 & h4 & L4 & _ & Hk); [|apply G4].
  apply bind_Done_inv in Hk as (a5 & h5 & L5 & _ & Hk); [|apply G5].
  apply bind_Done_inv in Hk as (a6 & h6 & L6 & _ & Hk); [|apply G6].
  apply bind_Done_inv in Hk as (arr & h7 & L7 & _ & Hk); [|apply grows_read].
  destruct (arr !! 0) as [first|]; [|done].
  apply bind_Done_inv in Hk as (members & h8 & L8 & _ & Hk);
    [|apply grows_slice_run].
  apply bind_Done_inv in Hk as (m & h9 & L9 & _ & Hk); [|apply grows_array].
  apply bind_Done_inv in Hk as (res & h10 & _ & Hres & Hk).
  2: { apply grows_for_each. intros ?. apply grows_slice_run. }
  apply for_each_slice_run in Hres as [L10 Hres].
  injection Hk as <- <-. split; [lia|].
  exists res. split; [by rewrite lookup_app_r, Nat.sub_diag|].
  eapply Forall_impl; [done|]. intros ? (r & -> & ?). exists r. split; [done|lia].
Qed.
End Fresh.

(** ** The further properties at work *)

Lemma knapsack_Return_feasible_witness :
  knapsack collection_double (Some 12%float)
    = Return [(3, 5); (4, 5); (1, 1); (3, 2)]%float
  ∧ filterByWeight (Some 12%float)
      (calculateTotalBenefit
         (calculateBenefit <$> [(3, 5); (4, 5); (1, 1); (3, 2)]%float)) = true.
Proof.
  split; [reflexivity|].
  apply (knapsack_Return_feasible collection_double (Some 12%float)).
  reflexivity.
Defined.










Lemma knapsack_run_refines_witness :
  items_at readme_store 6 = Some collection_double
  ∧ observe (knapsack_run 6 (Some 12%float) readme_store)
    = Some (knapsack collection_double (Some 12%float)).
Proof.
  split; [reflexivity|].
  apply (knapsack_run_refines readme_store 6 collection_double). reflexivity.
Defined.

Lemma knapsack_run_fresh_witness :
  (knapsack_run 6 (Some 12%float) readme_store).1 = Done 276
  ∧ length readme_store ≤ 276
  ∧ ∃ arr, (knapsack_run 6 (Some 12%float) readme_store).2 !! 276 = Some arr
      ∧ Forall (λ v, ∃ r, v = VRef r ∧ length readme_store ≤ r < 276) arr.
Proof.
  split; [reflexivity|].
  apply (knapsack_run_fresh readme_store 6 (Some 12%float)).
  apply injective_projections; reflexivity.
Defined.
